(** * UpdateList.py: retention clearing and filtered copying

    A shallow embedding of [src/UpdateList.py] over a small model of the
    file system and of the Python library calls the script makes
    ([os.listdir], [os.path.join], [os.path.relpath], [shutil.rmtree],
    [shutil.copytree], [print]).

    Conventions of the model:
    - a path string is represented by the list of its components once it
      is resolved against the working directory, so [os.path.join p name]
      is [p ++ [name]] and the root directory is [[]];
    - path strings are rendered with the POSIX separator [/];
    - the file system is a finite map from paths to nodes; a node is a
      regular file with its content or a directory; symbolic links and
      metadata are not modelled;
    - [locked] is the set of entries the operating system refuses to
      remove or to open for reading (a file held by another process, a
      read-only entry); it is how permission errors enter the model;
    - [recursion_depth] is the number of nested calls the interpreter
      still allows below the first call of a recursive library function;
      past it the call raises [RecursionError]. *)

From stdpp Require Import gmap strings list fin_maps.

Open Scope string_scope.
Open Scope list_scope.

(** ** Paths *)

Module Path.

Abbreviation path := (list string).

(** [os.path.join(p, name)] for a plain entry name. *)
Definition join (p : path) (name : string) : path := p ++ [name].

(** [os.path.dirname] and [os.path.basename] on resolved paths. *)
Definition dirname (p : path) : path := removelast p.
Definition basename (p : path) : string := default "" (last p).

(** Rendering of an absolute path. *)
Definition show (p : path) : string := "/" +:+ String.concat "/" p.

(** [os.path.commonprefix] of two component lists. *)
Fixpoint commonprefix (a b : path) : path :=
  match a, b with
  | x :: a', y :: b' => if decide (x = y) then x :: commonprefix a' b' else []
  | _, _ => []
  end.

(** [posixpath.relpath(p, start)]:
    [rel_list = [pardir] * (len(start_list) - i) + path_list[i:]] with
    [i] the length of the common prefix; [curdir] when [rel_list] is
    empty, the components joined by the separator otherwise. *)
Definition relpath (p start : path) : string :=
  let i := length (commonprefix start p) in
  let rel_list := replicate (length start - i) ".." ++ drop i p in
  match rel_list with
  | [] => "."
  | _ => String.concat "/" rel_list
  end.

(** [relative_to p k] is the remainder of [k] below [p], when [k] lies
    at or below [p]. *)
Fixpoint relative_to (p k : path) : option path :=
  match p, k with
  | [], _ => Some k
  | x :: p', y :: k' => if decide (x = y) then relative_to p' k' else None
  | _ :: _, [] => None
  end.

End Path.
Import Path.

(** ** File system *)

Inductive node : Type :=
| File (content : string)
| Dir.

#[global] Instance node_eq_dec : EqDecision node.
Proof. solve_decision. Defined.

Definition is_dir (n : node) : bool :=
  match n with Dir => true | File _ => false end.

(** Python exceptions the modelled calls can raise.  All of them are
    subclasses of [Exception]. *)
Inductive exn : Type :=
| FileNotFoundError (p : path)
| NotADirectoryError (p : path)
| IsADirectoryError (p : path)
| FileExistsError (p : path)
| PermissionError (p : path)
| ShutilError (errors : list (path * path * string))
| RecursionError.

Definition newline : string := String (Ascii.ascii_of_nat 10) "".
Definition dquote : string := String (Ascii.ascii_of_nat 34) "".

Definition os_error_text (errno : string) (p : path) : string :=
  errno +:+ ": '" +:+ Path.show p +:+ "'".

(** [str(ex)]. *)
Definition str_exn (ex : exn) : string :=
  match ex with
  | FileNotFoundError p => os_error_text "[Errno 2] No such file or directory" p
  | NotADirectoryError p => os_error_text "[Errno 20] Not a directory" p
  | IsADirectoryError p => os_error_text "[Errno 21] Is a directory" p
  | FileExistsError p => os_error_text "[Errno 17] File exists" p
  | PermissionError p => os_error_text "[Errno 13] Permission denied" p
  | ShutilError errors =>
      "[" +:+ String.concat ", "
        (map (λ e : path * path * string,
                "('" +:+ Path.show e.1.1 +:+ "', '" +:+ Path.show e.1.2 +:+ "', "
                +:+ dquote +:+ e.2 +:+ dquote +:+ ")") errors) +:+ "]"
  | RecursionError => "maximum recursion depth exceeded"
  end.

Module FS.

Abbreviation tree := (gmap path node).

(** [os.stat]: the root always is a directory. *)
Definition stat (σ : tree) (p : path) : option node :=
  match p with
  | [] => Some Dir
  | _ => σ !! p
  end.

(** Every entry sits in a directory. *)
Definition wf (σ : tree) : Prop :=
  map_Forall (λ k _, stat σ (dirname k) = Some Dir) σ.

(** The names of the direct children of [p], in the listing order of
    the map. *)
Definition child_name (p k : path) : option string :=
  match relative_to p k with
  | Some [name] => Some name
  | _ => None
  end.

Definition names (σ : tree) (p : path) : list string :=
  omap (child_name p) (map_to_list σ).*1.

(** The error of a system call on a path [p] that does not resolve,
    walking [p] from [seen]: [ENOTDIR] when a component on the way is a
    regular file, [ENOENT] when a component is missing. *)
Fixpoint resolve_error (σ : tree) (seen rest p : path) : exn :=
  match rest with
  | [] => FileNotFoundError p
  | x :: rest' =>
      match stat σ seen with
      | Some Dir => resolve_error σ (seen ++ [x]) rest' p
      | Some (File _) => NotADirectoryError p
      | None => FileNotFoundError p
      end
  end.

Definition missing_error (σ : tree) (p : path) : exn :=
  resolve_error σ [] p p.

(** [os.listdir(p)]. *)
Definition listdir (σ : tree) (p : path) : exn + list string :=
  match stat σ p with
  | None => inl (missing_error σ p)
  | Some (File _) => inl (NotADirectoryError p)
  | Some Dir => inr (names σ p)
  end.

(** [os.scandir(p)]: the entries with their cached type. *)
Definition scandir (σ : tree) (p : path) : exn + list (string * bool) :=
  match listdir σ p with
  | inl e => inl e
  | inr ns => inr (omap (λ name, n ← σ !! join p name; Some (name, is_dir n)) ns)
  end.

(** [os.unlink(k)] and [os.rmdir(k)] as [rmtree] calls them with
    [ignore_errors=True]: the [OSError] of a locked entry, or of a
    directory that is not empty, goes to [onerror], which drops it. *)
Definition try_unlink (L : gset path) (σ : tree) (k : path) : tree :=
  if decide (k ∈ L) then σ else delete k σ.

Definition try_rmdir (L : gset path) (σ : tree) (k : path) : tree :=
  if decide (k ∈ L) then σ
  else match names σ k with
       | [] => delete k σ
       | _ => σ
       end.

(** The loop of [shutil._rmtree_safe_fd] over the scanned entries of
    [p]; [rec] is the recursive call.  A directory is emptied by [rec]
    and then removed, anything else is unlinked.  What [rec] raises (it
    can only be [RecursionError], every [OSError] being dropped) leaves
    the loop at once. *)
Fixpoint rmtree_entries (rec : tree → path → tree * option exn)
    (L : gset path) (p : path) (entries : list (string * bool)) (σ : tree)
  : tree * option exn :=
  match entries with
  | [] => (σ, None)
  | (name, isdir) :: rest =>
      let fullname := join p name in
      if isdir then
        match rec σ fullname with
        | (σ1, Some ex) => (σ1, Some ex)
        | (σ1, None) => rmtree_entries rec L p rest (try_rmdir L σ1 fullname)
        end
      else rmtree_entries rec L p rest (try_unlink L σ fullname)
  end.

(** [shutil._rmtree_safe_fd(topfd, p, onerror)]: scan [p] (an error is
    dropped and ends the call) and remove its entries.  It calls itself
    once per directory level; [fuel] is the number of nested calls the
    interpreter still allows, and [RecursionError] is no [OSError]. *)
Fixpoint rmtree_safe_fd (L : gset path) (fuel : nat) (σ : tree) (p : path)
  : tree * option exn :=
  match fuel with
  | 0 => (σ, Some RecursionError)
  | S fuel' =>
      match scandir σ p with
      | inl _ => (σ, None)
      | inr entries => rmtree_entries (rmtree_safe_fd L fuel') L p entries σ
      end
  end.

(** [shutil.rmtree(p, ignore_errors=True)].  The path must point to a
    directory: on a missing path or a regular file the system calls fail
    ([lstat], or [scandir] and [rmdir] with [NotADirectoryError]) and the
    errors are dropped, leaving the tree as it is.  A directory is
    emptied and then removed. *)
Definition rmtree (L : gset path) (fuel : nat) (σ : tree) (p : path)
  : tree * option exn :=
  match stat σ p with
  | Some Dir =>
      match rmtree_safe_fd L fuel σ p with
      | (σ1, Some ex) => (σ1, Some ex)
      | (σ1, None) => (try_rmdir L σ1 p, None)
      end
  | _ => (σ, None)
  end.

(** [os.mkdir(p)]. *)
Definition mkdir (σ : tree) (p : path) : tree * option exn :=
  match stat σ p with
  | Some _ => (σ, Some (FileExistsError p))
  | None =>
      match stat σ (dirname p) with
      | Some Dir => (<[p := Dir]> σ, None)
      | Some (File _) => (σ, Some (NotADirectoryError p))
      | None => (σ, Some (missing_error σ p))
      end
  end.

(** [os.makedirs(name, exist_ok=False)], on the reversed path:
    [if head and tail and not path.exists(head): try: makedirs(head)
     except FileExistsError: pass] and then [mkdir(name)]. *)
Fixpoint makedirs_rev (σ : tree) (rp : list string) : tree * option exn :=
  match rp with
  | [] => mkdir σ []
  | _ :: rhead =>
      match stat σ (reverse rhead) with
      | None =>
          match makedirs_rev σ rhead with
          | (σ1, None) => mkdir σ1 (reverse rp)
          | (σ1, Some (FileExistsError _)) => mkdir σ1 (reverse rp)
          | (σ1, Some e) => (σ1, Some e)
          end
      | Some _ => mkdir σ (reverse rp)
      end
  end.

Definition makedirs (σ : tree) (p : path) : tree * option exn :=
  makedirs_rev σ (reverse p).

(** [shutil.copy2(src, dst)]: [src] must be a readable regular file; a
    [dst] that is a directory stands for the file of the same name
    inside it. *)
Definition copy2 (L : gset path) (σ : tree) (src dst : path) : tree * option exn :=
  match stat σ src with
  | None => (σ, Some (missing_error σ src))
  | Some Dir => (σ, Some (IsADirectoryError src))
  | Some (File c) =>
      if decide (src ∈ L) then (σ, Some (PermissionError src)) else
      let target :=
        match stat σ dst with
        | Some Dir => join dst (basename src)
        | _ => dst
        end in
      match stat σ target with
      | Some Dir => (σ, Some (IsADirectoryError target))
      | Some (File _) =>
          if decide (target ∈ L) then (σ, Some (PermissionError target))
          else (<[target := File c]> σ, None)
      | None =>
          match stat σ (dirname target) with
          | Some Dir => (<[target := File c]> σ, None)
          | Some (File _) => (σ, Some (NotADirectoryError target))
          | None => (σ, Some (missing_error σ target))
          end
      end
  end.

(** The loop of [shutil._copytree] over the scanned entries; [rec] is
    the recursive [copytree].  An [Error] of a nested [copytree] extends
    [errors], an [OSError] is appended with its text, anything else (the
    interpreter's [RecursionError]) propagates. *)
Fixpoint copy_entries (rec : path → path → tree → tree * option exn)
    (L : gset path) (ignored_names : list string) (src dst : path)
    (entries : list (string * bool)) (σ : tree)
    (errors : list (path * path * string))
  : tree * (exn + list (path * path * string)) :=
  match entries with
  | [] => (σ, inr errors)
  | (name, isdir) :: rest =>
      if decide (name ∈ ignored_names)
      then copy_entries rec L ignored_names src dst rest σ errors
      else
        let srcname := join src name in
        let dstname := join dst name in
        let '(σ', r) :=
          if isdir then rec srcname dstname σ
          else copy2 L σ srcname dstname in
        match r with
        | None => copy_entries rec L ignored_names src dst rest σ' errors
        | Some (ShutilError errs) =>
            copy_entries rec L ignored_names src dst rest σ' (errors ++ errs)
        | Some RecursionError => (σ', inl RecursionError)
        | Some why =>
            copy_entries rec L ignored_names src dst rest σ'
              (errors ++ [(srcname, dstname, str_exn why)])
        end
  end.

(** [shutil.copytree(src, dst, ignore=ignore)] with the defaults
    [symlinks=False], [copy_function=copy2], [dirs_exist_ok=False]:
    scan [src], ask [ignore] for the names to skip, create [dst] (which
    must not exist), copy the entries, raise [Error(errors)] when some
    entry failed.  [fuel] is the number of nested calls the interpreter
    still allows. *)
Fixpoint copytree (L : gset path) (ignore : path → list string → list string)
    (fuel : nat) (src dst : path) (σ : tree) : tree * option exn :=
  match fuel with
  | 0 => (σ, Some RecursionError)
  | S fuel' =>
      match scandir σ src with
      | inl e => (σ, Some e)
      | inr entries =>
          let ignored_names := ignore src entries.*1 in
          match makedirs σ dst with
          | (σ1, Some e) => (σ1, Some e)
          | (σ1, None) =>
              match copy_entries (copytree L ignore fuel') L ignored_names
                      src dst entries σ1 [] with
              | (σ2, inl e) => (σ2, Some e)
              | (σ2, inr []) => (σ2, None)
              | (σ2, inr errors) => (σ2, Some (ShutilError errors))
              end
          end
      end
  end.

End FS.

(** ** The script *)

(** What the interpreter and the operating system fix for a run. *)
Record env : Type := Env {
  locked : gset path;
  cwd : path;
  recursion_depth : nat
}.

(** Library calls made by the script's own code, in order. *)
Inductive call : Type :=
| CallListdir (p : path)
| CallRmtree (p : path)
| CallCopytree (src dst : path).

Record world : Type := World {
  fs : gmap path node;
  stdout : list string;
  calls : list call
}.

Inductive outcome : Type :=
| Normal
| Raised (ex : exn).

Definition set_fs (σ : gmap path node) (w : world) : world :=
  {| fs := σ; stdout := stdout w; calls := calls w |}.

Definition print (line : string) (w : world) : world :=
  {| fs := fs w; stdout := stdout w ++ [line]; calls := calls w |}.

Definition log_call (c : call) (w : world) : world :=
  {| fs := fs w; stdout := stdout w; calls := calls w ++ [c] |}.

(** [set(s or [])]. *)
Definition set_or_empty (s : option (gset string)) : gset string :=
  default ∅ s.

(** [try: body except Exception as ex: handler]. *)
Definition try_except (body : world → world * outcome)
    (handler : exn → world → world * outcome) (w : world) : world * outcome :=
  match body w with
  | (w', Normal) => (w', Normal)
  | (w', Raised ex) => handler ex w'
  end.

Section Script.

Variable E : env.

Definition shutil_rmtree (p : path) (w : world) : world * outcome :=
  let w := log_call (CallRmtree p) w in
  match FS.rmtree (locked E) (S (recursion_depth E)) (fs w) p with
  | (σ, None) => (set_fs σ w, Normal)
  | (σ, Some ex) => (set_fs σ w, Raised ex)
  end.

Definition shutil_copytree (ignore : path → list string → list string)
    (src dst : path) (w : world) : world * outcome :=
  let w := log_call (CallCopytree src dst) w in
  match FS.copytree (locked E) ignore (S (recursion_depth E)) src dst (fs w) with
  | (σ, None) => (set_fs σ w, Normal)
  | (σ, Some ex) => (set_fs σ w, Raised ex)
  end.

(** The nested function [ignore] of [copy_dir]:
    [[name for name in names
      if os.path.relpath(os.path.join(path, name), src) in exclude
      or name in exclude]]. *)
Definition ignore (src : path) (exclude : gset string)
    (path : path) (names : list string) : list string :=
  filter (λ name, relpath (join path name) src ∈ exclude ∨ name ∈ exclude) names.

(** The body of the [try] block of [copy_dir]. *)
Definition copy_dir_body (src dst : path) (exclude : option (gset string))
    (w : world) : world * outcome :=
  let exclude := set_or_empty exclude in
  let w := print ("Copying: " +:+ relpath src (cwd E)) w in
  shutil_copytree (ignore src exclude) src dst w.

Definition failure_line (src : path) (ex : exn) : string :=
  "Failed to copy: " +:+ Path.show src +:+ ";" +:+ newline +:+ str_exn ex.

Definition copy_dir (src dst : path) (exclude : option (gset string))
    (w : world) : world * outcome :=
  try_except (copy_dir_body src dst exclude)
    (λ ex w', (print (failure_line src ex) w', Normal)) w.

(** The list comprehension of [clear_dir], over the listed items: an
    exception of [rmtree] leaves it at once. *)
Fixpoint clear_items (path : path) (keep : gset string) (items : list string)
    (w : world) : world * outcome :=
  match items with
  | [] => (w, Normal)
  | item :: rest =>
      if decide (item ∉ keep) then
        match shutil_rmtree (join path item) w with
        | (w', Normal) => clear_items path keep rest w'
        | (w', Raised ex) => (w', Raised ex)
        end
      else clear_items path keep rest w
  end.

Definition clear_dir (path : path) (keep : option (gset string))
    (w : world) : world * outcome :=
  let keep := set_or_empty keep in
  let w := log_call (CallListdir path) w in
  match FS.listdir (fs w) path with
  | inl ex => (w, Raised ex)
  | inr items => clear_items path keep items w
  end.

End Script.

(** ** Vocabulary of the statements *)

(** The test of [ignore] on an entry, given its path [rel] relative to the
    source root: its name or its relative path is in [exclude]. *)
Definition excluded (exclude : gset string) (rel : path) : Prop :=
  basename rel ∈ exclude ∨ String.concat "/" rel ∈ exclude.

(** No entry on the way from the directory at [q] (relative to the source
    root) down to [q ++ r] is excluded. *)
Definition reachable (exclude : gset string) (q r : path) : Prop :=
  ∀ r1, r1 ≠ [] → r1 `prefix_of` r → ¬ excluded exclude (q ++ r1).

(** [σ'] is [σ] with some missing directories on the way to [d] created. *)
Definition creates_towards (d : path) (σ σ' : gmap path node) : Prop :=
  ∀ k, σ' !! k = σ !! k ∨
       (k `prefix_of` d ∧ σ !! k = None ∧ σ' !! k = Some Dir).

(** [σ'] is [σ] except for entries written at or below [d], none of which
    replaces a directory, and for missing directories on the way to [d]. *)
Definition writes_below (d : path) (σ σ' : gmap path node) : Prop :=
  ∀ k, σ' !! k = σ !! k ∨
       (d `prefix_of` k ∧ σ !! k ≠ Some Dir ∧ is_Some (σ' !! k)) ∨
       (k `prefix_of` d ∧ σ !! k = None ∧ σ' !! k = Some Dir).

(** What the loop of [copytree] assumes of the recursive call. *)
Definition rec_writes (rec : path → path → gmap path node →
                             gmap path node * option exn) : Prop :=
  ∀ s t σ σ' r, rec s t σ = (σ', r) → writes_below t σ σ'.

(** What a successful [copytree] from the directory at [q] below the
    source [root] into [d] establishes, from [σ] to [σ']: the tree stays
    well formed, [d] was missing, nothing that existed is altered, every
    new entry is a missing directory on the way to [d] or lies at a
    reachable place below [d], and every reachable regular file of the
    source sits at the same place below [d] with the same content. *)
Definition copied_ok (X : gset string) (root q d : path)
    (σ σ' : gmap path node) : Prop :=
  FS.wf σ' ∧
  FS.stat σ d = None ∧
  (∀ k n, σ !! k = Some n → σ' !! k = Some n) ∧
  (∀ k, is_Some (σ' !! k) →
        is_Some (FS.stat σ k) ∨ k `prefix_of` d ∨
        ∃ r, k = d ++ r ∧ reachable X q r) ∧
  (∀ r c, FS.stat σ (root ++ q ++ r) = Some (File c) → reachable X q r →
          σ' !! (d ++ r) = Some (File c)).

(** What the loop assumes of the recursive call for [copied_ok]. *)
Definition rec_ok (X : gset string) (root : path)
    (rec : path → path → gmap path node → gmap path node * option exn) : Prop :=
  (∀ q d σ σ', FS.wf σ → rec (root ++ q) d σ = (σ', None) →
               copied_ok X root q d σ σ') ∧
  (∀ s d σ σ', rec s d σ ≠ (σ', Some (ShutilError []))).

(** [σ'] is [σ] with some entries strictly below [p] removed. *)
Definition removes_below (p : path) (σ σ' : gmap path node) : Prop :=
  ∀ k, σ' !! k = σ !! k ∨ (p `prefix_of` k ∧ p ≠ k ∧ σ' !! k = None).

(** [σ'] is [σ] with some entries at or below [p] removed. *)
Definition removes_under (p : path) (σ σ' : gmap path node) : Prop :=
  ∀ k, σ' !! k = σ !! k ∨ (p `prefix_of` k ∧ σ' !! k = None).




(** ** Concrete runs *)

Module Demo.

Definition E0 : env := {| locked := ∅; cwd := ["work"]; recursion_depth := 1000 |}.

Definition mk (l : list (path * node)) : world :=
  {| fs := list_to_map l; stdout := []; calls := [] |}.

Definition w_clear : world :=
  mk [ (["work"], Dir);
       (["work"; "a.txt"], File "A");
       (["work"; "b.txt"], File "B");
       (["work"; "sub"], Dir);
       (["work"; "sub"; "x"], File "X") ].




(** An interpreter close to its recursion limit, and a working directory
    with a directory nested three levels deep, listed before [old]. *)
Definition E_shallow : env :=
  {| locked := ∅; cwd := ["work"]; recursion_depth := 1 |}.

Definition w_deep : world :=
  mk [ (["work"], Dir);
       (["work"; "deep"], Dir);
       (["work"; "deep"; "a"], Dir);
       (["work"; "deep"; "a"; "b"], Dir);
       (["work"; "deep"; "a"; "b"; "c"], File "C");
       (["work"; "old"], Dir);
       (["work"; "old"; "f"], File "F");
       (["work"; "keep.txt"], File "K") ].

(** A project to copy into the working directory. *)
Definition w_copy : world :=
  mk [ (["ext"], Dir);
       (["ext"; "proj"], Dir);
       (["ext"; "proj"; "bin"], Dir);
       (["ext"; "proj"; "bin"; "x.bin"], File "XB");
       (["ext"; "proj"; "obj"], Dir);
       (["ext"; "proj"; "obj"; "y.o"], File "YO");
       (["ext"; "proj"; "Program.cs"], File "PC");
       (["work"], Dir) ].

Definition w_inner : world :=
  mk [ (["ext"], Dir);
       (["ext"; "proj"], Dir);
       (["ext"; "proj"; "inner.txt"], File "top");
       (["ext"; "proj"; "sub"], Dir);
       (["ext"; "proj"; "sub"; "inner.txt"], File "nested");
       (["work"], Dir) ].

End Demo.

(** [σ'] is [σ] except for entries written at or below [d], none of which
    replaces a directory. *)
Definition writes_under (d : path) (σ σ' : gmap path node) : Prop :=
  ∀ k, σ' !! k = σ !! k ∨
       (d `prefix_of` k ∧ σ !! k ≠ Some Dir ∧ is_Some (σ' !! k)).

Definition rec_writes_under (rec : path → path → gmap path node →
                                   gmap path node * option exn) : Prop :=
  ∀ s t σ σ' r, is_Some (FS.stat σ (dirname t)) → rec s t σ = (σ', r) →
                writes_under t σ σ'.


(** ** The top level of the script *)

(** One statement after the other; an exception that is not caught ends
    the script. *)
Definition seq (a b : world → world * outcome) (w : world) : world * outcome :=
  match a w with
  | (w', Normal) => b w'
  | (w', Raised ex) => (w', Raised ex)
  end.

Definition keep_main : gset string :=
  {["UpdateList.py"; ".git"; ".gitignore"; ".gitmodules"; "README.md"]}.

Definition exclude_main : gset string := {["bin"; ".git"; "obj"; ".vs"]}.

(** ['../HasteModding/<name>'] and ['./<name>'], resolved against the
    working directory. *)
Definition project_src (E : env) (name : string) : path :=
  dirname (cwd E) ++ ["HasteModding"; name].

Definition project_dst (E : env) (name : string) : path := join (cwd E) name.

(** Lines 18 to 20 of the script: clear the working directory, then copy
    the two projects into it. *)
Definition sync (E : env) : world → world * outcome :=
  seq (clear_dir E (cwd E) (Some keep_main))
    (seq (copy_dir E (project_src E "SettingsLib") (project_dst E "SettingsLib")
            (Some exclude_main))
         (copy_dir E (project_src E "Informer") (project_dst E "Informer")
            (Some exclude_main))).

Module Demo2.

(** The list repository next to the [HasteModding] checkout, with a
    stale copy of [Informer]; [SettingsLib] is missing from the
    checkout. *)
Definition E_list : env :=
  {| locked := ∅; cwd := ["home"; "list"]; recursion_depth := 1000 |}.

Definition w_list : world :=
  Demo.mk [ (["home"], Dir);
            (["home"; "list"], Dir);
            (["home"; "list"; "README.md"], File "readme");
            (["home"; "list"; ".git"], Dir);
            (["home"; "list"; ".git"; "HEAD"], File "ref");
            (["home"; "list"; "Informer"], Dir);
            (["home"; "list"; "Informer"; "old.cs"], File "old");
            (["home"; "HasteModding"], Dir);
            (["home"; "HasteModding"; "Informer"], Dir);
            (["home"; "HasteModding"; "Informer"; "new.cs"], File "new");
            (["home"; "HasteModding"; "Informer"; "bin"], Dir);
            (["home"; "HasteModding"; "Informer"; "bin"; "a.dll"], File "dll") ].

End Demo2.

(** ** Paths: basic facts *)

Section PathFacts.

Implicit Types p k r : path.

Lemma relative_to_Some p k r : relative_to p k = Some r ↔ k = p ++ r.
Proof.
  revert k. induction p as [|x p IH]; intros k; simpl.
  - split; [intros [= ->] | intros ->]; done.
  - destruct k as [|y k]; [done|].
    case_decide as Hxy.
    + subst y. rewrite IH. split; [by intros ->|by intros [= ->]].
    + split; [done|]. by intros [= -> _].
Qed.

Lemma relative_to_app p r : relative_to p (p ++ r) = Some r.
Proof. by apply relative_to_Some. Qed.

Lemma relative_to_prefix p k : is_Some (relative_to p k) ↔ p `prefix_of` k.
Proof.
  split.
  - intros [r Hr]. apply relative_to_Some in Hr. by exists r.
  - intros [r ->]. rewrite relative_to_app. by eexists.
Qed.

Lemma dirname_join p name : dirname (join p name) = p.
Proof. apply removelast_last. Qed.



Lemma commonprefix_app p r : commonprefix p (p ++ r) = p.
Proof.
  induction p as [|x p IH]; simpl; [by destruct r|].
  rewrite decide_True by done. by rewrite IH.
Qed.

(** Below [start], [relpath] is the remainder joined by the separator. *)
Lemma relpath_below start r :
  r ≠ [] → relpath (start ++ r) start = String.concat "/" r.
Proof.
  intros Hr. unfold relpath. rewrite commonprefix_app, Nat.sub_diag.
  rewrite drop_app_length. simpl. by destruct r.
Qed.

(** Two distinct children of one directory are not above one another. *)
Lemma sibling_not_prefix p name name' k :
  name ≠ name' → join p name `prefix_of` k → ¬ join p name' `prefix_of` k.
Proof.
  unfold join. intros Hne [r ->] [r' Hr'].
  rewrite <- !(assoc_L (++)) in Hr'. apply (inj (app p)) in Hr'.
  simpl in Hr'. congruence.
Qed.

End PathFacts.

(** ** File system: listing and removal *)

Section FSFacts.

Implicit Types (σ : gmap path node) (p k : path) (L : gset path).

Lemma stat_join σ p name : FS.stat σ (join p name) = σ !! join p name.
Proof. unfold FS.stat, join. by destruct p. Qed.

Lemma child_name_Some p k name : FS.child_name p k = Some name ↔ k = join p name.
Proof.
  unfold FS.child_name, join. split.
  - destruct (relative_to p k) as [[|x [|? ?]]|] eqn:Hr; try done.
    intros [= ->]. by apply relative_to_Some.
  - intros ->. by rewrite relative_to_app.
Qed.

(** [os.listdir] returns exactly the direct children, each once. *)
Lemma elem_of_names σ p name :
  name ∈ FS.names σ p ↔ is_Some (σ !! join p name).
Proof.
  unfold FS.names. rewrite list_elem_of_omap. split.
  - intros (k & Hk & Hc). apply child_name_Some in Hc as ->.
    apply list_elem_of_fmap in Hk as ([k' n] & -> & Hkn).
    apply elem_of_map_to_list in Hkn. by eexists.
  - intros [n Hn]. exists (join p name). split; [|by apply child_name_Some].
    apply list_elem_of_fmap. exists (join p name, n). split; [done|].
    by apply elem_of_map_to_list.
Qed.

Lemma NoDup_omap_inj {A B} (f : A → option B) (l : list A) :
  (∀ x y z, f x = Some z → f y = Some z → x = y) →
  NoDup l → NoDup (omap f l).
Proof.
  intros Hinj. induction 1 as [|x l Hx Hl IH]; simpl; [constructor|].
  destruct (f x) as [z|] eqn:Hfx; [|done].
  constructor; [|done].
  rewrite list_elem_of_omap. intros (y & Hy & Hfy).
  by rewrite (Hinj x y z) in Hx.
Qed.

Lemma NoDup_names σ p : NoDup (FS.names σ p).
Proof.
  unfold FS.names. apply NoDup_omap_inj; [|apply NoDup_fst_map_to_list].
  intros x y z Hx Hy. apply child_name_Some in Hx, Hy. congruence.
Qed.

End FSFacts.

(** ** File system: creation and copying of single entries *)

Section FSWrites.

Implicit Types (σ : gmap path node) (p k d : path) (L : gset path).

Lemma wf_lookup σ : FS.wf σ ↔ ∀ k n, σ !! k = Some n → FS.stat σ (dirname k) = Some Dir.
Proof. done. Qed.

Lemma stat_None_inv σ p : FS.stat σ p = None → p ≠ [] ∧ σ !! p = None.
Proof. by destruct p. Qed.

Lemma stat_lookup σ p : p ≠ [] → FS.stat σ p = σ !! p.
Proof. by destruct p. Qed.

Lemma stat_insert_ne σ p k n : p ≠ k → FS.stat (<[p := n]> σ) k = FS.stat σ k.
Proof. intros Hne. destruct k; [done|]. simpl. by rewrite lookup_insert_ne. Qed.

Lemma stat_insert_Dir σ p k : FS.stat σ k = Some Dir → FS.stat (<[p := Dir]> σ) k = Some Dir.
Proof.
  intros Hk. destruct k as [|x k]; [done|]. simpl in *.
  destruct (decide (p = x :: k)) as [->|Hne].
  - by rewrite lookup_insert_eq.
  - by rewrite lookup_insert_ne.
Qed.

Lemma dirname_ne p : p ≠ [] → dirname p ≠ p.
Proof.
  intros Hp Heq. destruct (exists_last Hp) as (h & x & ->).
  unfold dirname in Heq. rewrite removelast_last in Heq.
  by apply (prefix_snoc_not h x); rewrite <- Heq.
Qed.

(** Writing an entry into an existing directory keeps the tree
    well formed. *)
Lemma wf_insert σ p n :
  FS.wf σ → FS.stat σ (dirname p) = Some Dir → σ !! p ≠ Some Dir →
  FS.wf (<[p := n]> σ).
Proof.
  intros Hwf Hparent Hp k v Hk. simpl.
  assert (∀ x, FS.stat σ x = Some Dir → FS.stat (<[p := n]> σ) x = Some Dir) as Hmono.
  { intros x Hx. destruct (decide (p = x)) as [->|Hne].
    - destruct x; [done|]. simpl in Hx. congruence.
    - by rewrite stat_insert_ne. }
  apply Hmono. destruct (decide (p = k)) as [->|Hne]; [done|].
  rewrite lookup_insert_ne in Hk by done. by apply (Hwf k v).
Qed.

Lemma creates_towards_refl d σ : creates_towards d σ σ.
Proof. intros k. by left. Qed.

Lemma creates_towards_trans d σ1 σ2 σ3 :
  creates_towards d σ1 σ2 → creates_towards d σ2 σ3 → creates_towards d σ1 σ3.
Proof.
  intros H12 H23 k. destruct (H12 k) as [E1|(P1 & N1 & D1)],
    (H23 k) as [E2|(P2 & N2 & D2)].
  - left. congruence.
  - right. split; [done|]. split; congruence.
  - right. split; [done|]. split; congruence.
  - congruence.
Qed.

Lemma creates_towards_prefix d d' σ σ' :
  d `prefix_of` d' → creates_towards d σ σ' → creates_towards d' σ σ'.
Proof.
  intros Hd H k. destruct (H k) as [?|(? & ? & ?)]; [by left|right].
  split; [by etrans|done].
Qed.

Lemma mkdir_creates σ p σ' r :
  FS.mkdir σ p = (σ', r) → creates_towards p σ σ'.
Proof.
  unfold FS.mkdir. intros H k.
  destruct (FS.stat σ p) as [n|] eqn:Hp; [left; congruence|].
  apply stat_None_inv in Hp as [Hnil Hp].
  destruct (FS.stat σ (dirname p)) as [[|]|]; try (left; congruence).
  injection H as <- <-. destruct (decide (p = k)) as [->|Hne].
  - right. by rewrite lookup_insert_eq.
  - left. by rewrite lookup_insert_ne.
Qed.

(** What a successful [mkdir] establishes. *)
Lemma mkdir_ok σ p σ' :
  FS.mkdir σ p = (σ', None) →
  p ≠ [] ∧ σ !! p = None ∧ FS.stat σ (dirname p) = Some Dir ∧ σ' = <[p := Dir]> σ.
Proof.
  unfold FS.mkdir. intros H.
  destruct (FS.stat σ p) as [n|] eqn:Hp; [congruence|].
  apply stat_None_inv in Hp as [Hnil Hp].
  destruct (FS.stat σ (dirname p)) as [[|]|] eqn:Hd; try congruence.
  by injection H as <-.
Qed.

Lemma mkdir_fail_unchanged σ p σ' ex :
  FS.mkdir σ p = (σ', Some ex) → σ' = σ.
Proof.
  unfold FS.mkdir. intros H.
  destruct (FS.stat σ p) as [n|]; [congruence|].
  destruct (FS.stat σ (dirname p)) as [[|]|]; congruence.
Qed.

Lemma mkdir_exists σ p :
  is_Some (FS.stat σ p) → FS.mkdir σ p = (σ, Some (FileExistsError p)).
Proof. unfold FS.mkdir. by intros [n ->]. Qed.

Lemma mkdir_wf σ p σ' r : FS.wf σ → FS.mkdir σ p = (σ', r) → FS.wf σ'.
Proof.
  intros Hwf H. destruct r as [ex|].
  - by rewrite (mkdir_fail_unchanged _ _ _ _ H).
  - apply mkdir_ok in H as (_ & Hp & Hd & ->).
    apply wf_insert; [done|done|congruence].
Qed.

Lemma makedirs_rev_creates σ rp σ' r :
  FS.makedirs_rev σ rp = (σ', r) → creates_towards (reverse rp) σ σ'.
Proof.
  revert σ σ' r. induction rp as [|x rhead IH]; intros σ σ' r; simpl.
  - apply mkdir_creates.
  - assert (reverse rhead `prefix_of` reverse (x :: rhead)) as Hpre.
    { rewrite reverse_cons. by apply prefix_app_r. }
    destruct (FS.stat σ (reverse rhead)) as [n|]; [apply mkdir_creates|].
    destruct (FS.makedirs_rev σ rhead) as [σ1 [ex|]] eqn:Hrec.
    + apply IH in Hrec. apply (creates_towards_prefix _ _ _ _ Hpre) in Hrec.
      destruct ex; try (intros [= <- <-]; done).
      intros Hm. apply mkdir_creates in Hm.
      by apply (creates_towards_trans _ _ σ1).
    + apply IH in Hrec. apply (creates_towards_prefix _ _ _ _ Hpre) in Hrec.
      intros Hm. apply mkdir_creates in Hm.
      by apply (creates_towards_trans _ _ σ1).
Qed.

Lemma makedirs_creates σ p σ' r :
  FS.makedirs σ p = (σ', r) → creates_towards p σ σ'.
Proof.
  unfold FS.makedirs. intros H. apply makedirs_rev_creates in H.
  by rewrite reverse_involutive in H.
Qed.

Lemma makedirs_rev_wf σ rp σ' r :
  FS.wf σ → FS.makedirs_rev σ rp = (σ', r) → FS.wf σ'.
Proof.
  revert σ σ' r. induction rp as [|x rhead IH]; intros σ σ' r Hwf; simpl.
  - by apply mkdir_wf.
  - destruct (FS.stat σ (reverse rhead)) as [n|]; [by apply mkdir_wf|].
    destruct (FS.makedirs_rev σ rhead) as [σ1 [ex|]] eqn:Hrec.
    + apply IH in Hrec; [|done].
      destruct ex; try (intros [= <- <-]; done). by apply mkdir_wf.
    + apply IH in Hrec; [|done]. by apply mkdir_wf.
Qed.

(** What a successful [makedirs] establishes: the target was missing,
    now is a directory, and so is its parent. *)
Lemma makedirs_ok σ p σ' :
  FS.makedirs σ p = (σ', None) →
  p ≠ [] ∧ σ' !! p = Some Dir ∧ FS.stat σ' (dirname p) = Some Dir ∧
  FS.stat σ p = None.
Proof.
  unfold FS.makedirs. intros H.
  assert (∃ σ1, creates_towards p σ σ1 ∧ FS.mkdir σ1 p = (σ', None)) as (σ1 & Hc & Hm).
  { destruct (reverse p) as [|x rhead] eqn:Hrp; simpl in H.
    - apply mkdir_ok in H as [? _]. done.
    - assert (p = reverse (x :: rhead)) as Hp.
      { by rewrite <- Hrp, reverse_involutive. }
      rewrite <- Hp in H.
      destruct (FS.stat σ (reverse rhead)) as [n|].
      { exists σ. split; [apply creates_towards_refl|done]. }
      destruct (FS.makedirs_rev σ rhead) as [σ1 [ex|]] eqn:Hrec.
      + apply makedirs_rev_creates in Hrec.
        destruct ex; try done. exists σ1. split; [|done].
        eapply creates_towards_prefix; [|done].
        rewrite Hp, reverse_cons. by apply prefix_app_r.
      + apply makedirs_rev_creates in Hrec. exists σ1. split; [|done].
        eapply creates_towards_prefix; [|done].
        rewrite Hp, reverse_cons. by apply prefix_app_r. }
  apply mkdir_ok in Hm as (Hnil & Hp & Hd & ->).
  split; [done|]. split; [by rewrite lookup_insert_eq|]. split.
  - by apply stat_insert_Dir.
  - rewrite stat_lookup by done.
    destruct (Hc p) as [<-|(_ & ? & ?)]; [done|congruence].
Qed.

End FSWrites.

(** ** [copytree]: what it may write *)

Section CopyWrites.

Implicit Types (σ : gmap path node) (p k d : path) (L : gset path).

Lemma writes_below_refl d σ : writes_below d σ σ.
Proof. intros k. by left. Qed.

Lemma creates_towards_writes d σ σ' : creates_towards d σ σ' → writes_below d σ σ'.
Proof. intros H k. destruct (H k) as [?|?]; [by left|by right; right]. Qed.

Lemma writes_below_trans d σ1 σ2 σ3 :
  writes_below d σ1 σ2 → writes_below d σ2 σ3 → writes_below d σ1 σ3.
Proof.
  intros H12 H23 k.
  destruct (H12 k) as [E1|[(P1 & N1 & S1)|(P1 & N1 & D1)]],
    (H23 k) as [E2|[(P2 & N2 & S2)|(P2 & N2 & D2)]].
  - left. congruence.
  - right. left. split; [done|]. split; congruence.
  - right. right. split; [done|]. split; congruence.
  - right. left. split; [done|]. split; congruence.
  - right. left. done.
  - rewrite N2 in S1. by destruct S1.
  - right. right. split; [done|]. split; congruence.
  - congruence.
  - congruence.
Qed.

Lemma writes_below_join d name σ σ' :
  writes_below (join d name) σ σ' → writes_below d σ σ'.
Proof.
  intros H k. destruct (H k) as [?|[(P & N & S)|(P & N & D)]]; [by left|..].
  - right. left. split; [|done]. etrans; [|done]. by apply prefix_app_r.
  - destruct (decide (k = join d name)) as [->|Hne].
    + right. left. split; [by apply prefix_app_r|]. split; [congruence|].
      rewrite D. by eexists.
    + right. right. split; [|done].
      destruct P as [r Hr]. unfold join in *.
      destruct r as [|y r _] using rev_ind.
      * rewrite app_nil_r in Hr. congruence.
      * rewrite (assoc_L (++)) in Hr. apply app_inj_tail in Hr as [-> _].
        by apply prefix_app_r.
Qed.

Lemma writes_below_dir d σ σ' k :
  writes_below d σ σ' → σ !! k = Some Dir → σ' !! k = Some Dir.
Proof.
  intros H Hk. destruct (H k) as [?|[(P & N & S)|(P & N & D)]]; congruence.
Qed.

Lemma writes_below_stat_dir d σ σ' k :
  writes_below d σ σ' → FS.stat σ k = Some Dir → FS.stat σ' k = Some Dir.
Proof. destruct k; [done|]. apply writes_below_dir. Qed.

Lemma writes_below_is_Some d σ σ' k :
  writes_below d σ σ' → is_Some (σ !! k) → is_Some (σ' !! k).
Proof.
  intros H Hk. destruct (H k) as [->|[(P & N & S)|(P & N & D)]]; [done|done|].
  rewrite D. by eexists.
Qed.

Lemma writes_below_outside d σ σ' k :
  writes_below d σ σ' → ¬ d `prefix_of` k → ¬ k `prefix_of` d →
  σ' !! k = σ !! k.
Proof. intros H H1 H2. destruct (H k) as [?|[(P & _)|(P & _)]]; done. Qed.

Lemma copy2_fail_unchanged L σ s t σ' ex :
  FS.copy2 L σ s t = (σ', Some ex) → σ' = σ.
Proof.
  unfold FS.copy2. intros H.
  destruct (FS.stat σ s) as [[c|]|]; try congruence.
  case_decide; [congruence|].
  destruct (FS.stat σ _) as [[c'|]|] in H; try congruence.
  - case_decide; congruence.
  - destruct (FS.stat σ _) as [[c'|]|] in H; congruence.
Qed.

(** A successful [copy2] writes one regular file, at [t] or, when [t]
    is a directory, inside it; it never replaces a directory. *)
Lemma copy2_ok L σ s t σ' :
  FS.copy2 L σ s t = (σ', None) →
  ∃ c target,
    FS.stat σ s = Some (File c) ∧ (s ∉ L) ∧
    t `prefix_of` target ∧ target ≠ [] ∧ σ !! target ≠ Some Dir ∧
    (FS.stat σ t ≠ Some Dir → target = t) ∧
    (σ !! target = None → FS.stat σ (dirname target) = Some Dir) ∧
    σ' = <[target := File c]> σ.
Proof.
  unfold FS.copy2. intros H.
  destruct (FS.stat σ s) as [[c|]|]; try congruence.
  case_decide as HL; [congruence|].
  set (target := match FS.stat σ t with
                 | Some Dir => join t (basename s) | _ => t end) in *.
  assert (t `prefix_of` target) as Hpre.
  { unfold target. destruct (FS.stat σ t) as [[|]|]; try done.
    by apply prefix_app_r. }
  assert (FS.stat σ t ≠ Some Dir → target = t) as Ht.
  { unfold target. by destruct (FS.stat σ t) as [[|]|]. }
  clearbody target. exists c, target.
  destruct (FS.stat σ target) as [[c'|]|] eqn:Hst; try congruence.
  - case_decide; [congruence|]. injection H as <-.
    assert (target ≠ []) as Hnil by (intros ->; done).
    rewrite stat_lookup in Hst by done.
    repeat (split; [done || congruence|]). done.
  - apply stat_None_inv in Hst as [Hnil Hst].
    destruct (FS.stat σ (dirname target)) as [[c'|]|] eqn:Hd; try congruence.
    injection H as <-.
    repeat (split; [done || congruence|]). done.
Qed.

Lemma copy2_writes L σ s t σ' r :
  FS.copy2 L σ s t = (σ', r) → writes_below t σ σ'.
Proof.
  intros H. destruct r as [ex|].
  - apply copy2_fail_unchanged in H as ->. apply writes_below_refl.
  - apply copy2_ok in H as (c & target & _ & _ & Hpre & _ & Hd & _ & _ & ->).
    intros k. destruct (decide (target = k)) as [<-|Hne].
    + right. left. split; [done|]. split; [done|].
      rewrite lookup_insert_eq. by eexists.
    + left. by rewrite lookup_insert_ne.
Qed.

Lemma copy_entries_writes rec L ign src d entries σ errs σ' res :
  rec_writes rec →
  FS.copy_entries rec L ign src d entries σ errs = (σ', res) →
  writes_below d σ σ'.
Proof.
  intros Hrec. revert σ errs.
  induction entries as [|[name isdir] rest IH]; intros σ errs; simpl.
  - intros [= <- _]. apply writes_below_refl.
  - case_decide; [apply IH|].
    destruct (if isdir then rec (join src name) (join d name) σ
              else FS.copy2 L σ (join src name) (join d name))
      as [σ1 r] eqn:Hstep.
    assert (writes_below d σ σ1) as H1.
    { apply (writes_below_join d name).
      destruct isdir; [by eapply Hrec|by eapply copy2_writes]. }
    destruct r as [[]|]; try (intros H2; apply IH in H2;
      by apply (writes_below_trans _ _ σ1)).
    by intros [= <- _].
Qed.

Lemma copytree_writes L ign fuel : rec_writes (FS.copytree L ign fuel).
Proof.
  induction fuel as [|fuel IH]; intros s t σ σ' r; simpl.
  - intros [= <- _]. apply writes_below_refl.
  - destruct (FS.scandir σ s) as [e|entries].
    { intros [= <- _]. apply writes_below_refl. }
    destruct (FS.makedirs σ t) as [σ1 [e|]] eqn:Hmk.
    { intros [= <- _]. by apply creates_towards_writes, (makedirs_creates _ _ _ _ Hmk). }
    apply makedirs_creates, creates_towards_writes in Hmk.
    destruct (FS.copy_entries _ _ _ _ _ _ _ _) as [σ2 res] eqn:Hloop.
    apply copy_entries_writes in Hloop; [|done].
    intros Hres. assert (σ' = σ2) as ->.
    { destruct res as [e|[|]]; congruence. }
    by apply (writes_below_trans _ _ σ1).
Qed.

End CopyWrites.

(** ** Scanning a directory *)

Section Scan.

Implicit Types (σ : gmap path node) (p : path).

Lemma scandir_inr σ p entries :
  FS.scandir σ p = inr entries → FS.stat σ p = Some Dir.
Proof.
  unfold FS.scandir, FS.listdir. by destruct (FS.stat σ p) as [[|]|].
Qed.

Lemma resolve_error_cases σ seen rest p :
  FS.resolve_error σ seen rest p = FileNotFoundError p ∨
  FS.resolve_error σ seen rest p = NotADirectoryError p.
Proof.
  revert seen. induction rest as [|x rest IH]; intros seen; simpl; [by left|].
  destruct (FS.stat σ seen) as [[c|]|]; [by right|apply IH|by left].
Qed.

(** A path that does not resolve gives [ENOENT] or [ENOTDIR]. *)
Lemma missing_error_cases σ p :
  FS.missing_error σ p = FileNotFoundError p ∨
  FS.missing_error σ p = NotADirectoryError p.
Proof. apply resolve_error_cases. Qed.

Lemma missing_error_text σ p :
  str_exn (FS.missing_error σ p) =
    "[Errno 2] No such file or directory: '" +:+ Path.show p +:+ "'" ∨
  str_exn (FS.missing_error σ p) =
    "[Errno 20] Not a directory: '" +:+ Path.show p +:+ "'".
Proof. destruct (missing_error_cases σ p) as [-> | ->]; [by left|by right]. Qed.

Lemma scandir_missing σ p :
  FS.stat σ p = None → FS.scandir σ p = inl (FS.missing_error σ p).
Proof. unfold FS.scandir, FS.listdir. by intros ->. Qed.

Lemma scandir_dir σ p :
  FS.stat σ p = Some Dir → ∃ entries, FS.scandir σ p = inr entries.
Proof. unfold FS.scandir, FS.listdir. intros ->. by eexists. Qed.

(** The scan lists every direct child once, with its type. *)
Lemma scandir_entries σ p entries name b :
  FS.scandir σ p = inr entries →
  (name, b) ∈ entries ↔ ∃ n, σ !! join p name = Some n ∧ b = is_dir n.
Proof.
  unfold FS.scandir, FS.listdir.
  destruct (FS.stat σ p) as [[|]|]; try done. intros [= <-].
  rewrite list_elem_of_omap. split.
  - intros (name' & _ & H).
    destruct (σ !! join p name') as [n|] eqn:Hn; simpl in H; [|done].
    injection H as -> <-. by exists n.
  - intros (n & Hn & ->). exists name. split.
    + apply elem_of_names. by eexists.
    + by rewrite Hn.
Qed.

Lemma scandir_NoDup σ p entries :
  FS.scandir σ p = inr entries → NoDup entries.*1.
Proof.
  unfold FS.scandir, FS.listdir.
  destruct (FS.stat σ p) as [[|]|]; try done. intros [= <-].
  pose proof (NoDup_names σ p) as Hnd.
  induction Hnd as [|name ns Hname Hns IH]; simpl; [constructor|].
  destruct (σ !! join p name) as [n|]; simpl; [|done].
  constructor; [|done].
  intros Hin. apply list_elem_of_fmap in Hin as ([name' b] & -> & Hin).
  apply list_elem_of_omap in Hin as (name'' & Hin & H).
  destruct (σ !! join p name'') as [n'|]; simpl in H; [|done].
  injection H as -> _. done.
Qed.

(** [makedirs] on a path that exists raises [FileExistsError] and
    creates nothing. *)
Lemma makedirs_exists σ p :
  is_Some (FS.stat σ p) → is_Some (FS.stat σ (dirname p)) →
  FS.makedirs σ p = (σ, Some (FileExistsError p)).
Proof.
  intros Hp Hd. unfold FS.makedirs.
  destruct (reverse p) as [|x rhead] eqn:Hrp; simpl.
  - assert (p = []) as -> by (by rewrite <- (reverse_involutive p), Hrp).
    done.
  - assert (p = reverse (x :: rhead)) as Hpeq.
    { by rewrite <- Hrp, reverse_involutive. }
    rewrite <- Hpeq.
    assert (dirname p = reverse rhead) as Hdn.
    { rewrite Hpeq, reverse_cons. apply removelast_last. }
    rewrite Hdn in Hd. destruct Hd as [n ->]. by apply mkdir_exists.
Qed.

End Scan.

(** ** [copy_dir] *)

Section CopyDir.

Variable E : env.
Implicit Types (w : world) (exclude : option (gset string)) (src dst : path).

(** [copy_dir_body] is one [copytree] on the current file system, after
    the announcing line. *)
Lemma copy_dir_body_eq src dst exclude w :
  copy_dir_body E src dst exclude w =
  let w0 := log_call (CallCopytree src dst)
              (print ("Copying: " +:+ relpath src (cwd E)) w) in
  let r := FS.copytree (locked E) (ignore src (set_or_empty exclude))
             (S (recursion_depth E)) src dst (fs w) in
  (set_fs r.1 w0, match r.2 with None => Normal | Some ex => Raised ex end).
Proof.
  unfold copy_dir_body, shutil_copytree. cbn [fs log_call print].
  by destruct (FS.copytree _ _ _ _ _ _) as [σ [ex|]].
Qed.

Lemma copy_dir_body_Normal src dst exclude w w' :
  copy_dir_body E src dst exclude w = (w', Normal) →
  FS.copytree (locked E) (ignore src (set_or_empty exclude))
    (S (recursion_depth E)) src dst (fs w) = (fs w', None).
Proof.
  rewrite copy_dir_body_eq. cbn zeta.
  destruct (FS.copytree _ _ _ _ _ _) as [σ [ex|]]; simpl; [done|].
  by intros [= <-].
Qed.

Lemma ignore_elem_of src (X : gset string) q names name :
  name ∈ ignore src X (src ++ q) names ↔
  name ∈ names ∧ excluded X (q ++ [name]).
Proof.
  unfold ignore, excluded, basename, join. rewrite list_elem_of_filter.
  rewrite <- (assoc_L (++)), relpath_below by (by destruct q).
  rewrite last_snoc. simpl. tauto.
Qed.

End CopyDir.

(** C3: [ignore] returns exactly the listed names that are in [exclude]
    literally or whose path relative to the source root is; the loop of
    [copytree] passes over such an entry without doing anything; and
    with [exclude = {"sub/inner.txt"}] the top-level [inner.txt] is
    copied while [sub/inner.txt] is not. *)
Theorem ignore_skips_by_name_or_relpath :
  (∀ (src : path) (exclude : gset string) (q : path) names name,
      name ∈ ignore src exclude (src ++ q) names ↔
      name ∈ names ∧
      (name ∈ exclude ∨ String.concat "/" (q ++ [name]) ∈ exclude)) ∧
  (∀ rec L ign s d name isdir rest σ errs, name ∈ ign →
      FS.copy_entries rec L ign s d ((name, isdir) :: rest) σ errs =
      FS.copy_entries rec L ign s d rest σ errs) ∧
  let w' := (copy_dir Demo.E0 ["ext"; "proj"] ["work"; "proj"]
               (Some {["sub/inner.txt"]}) Demo.w_inner).1 in
  fs w' !! ["work"; "proj"; "inner.txt"] = Some (File "top") ∧
  fs w' !! ["work"; "proj"; "sub"] = Some Dir ∧
  fs w' !! ["work"; "proj"; "sub"; "inner.txt"] = None.
Proof.
  split; [|split].
  - intros src exclude q names name. rewrite ignore_elem_of.
    unfold excluded, basename. by rewrite last_snoc.
  - intros rec L ign s d name isdir rest σ errs Hin. simpl.
    by rewrite decide_True.
  - vm_compute. done.
Qed.

Lemma ignore_skips_by_name_or_relpath_witness :
  FS.copy_entries (λ _ _ σ, (σ, None)) ∅ ["bin"] ["src"] ["dst"]
    [("bin", true)] ∅ [] = (∅, inr []).
Proof.
  exact (proj1 (proj2 ignore_skips_by_name_or_relpath)
           (λ _ _ σ, (σ, None)) ∅ ["bin"] ["src"] ["dst"] "bin" true [] ∅ []
           ltac:(apply list_elem_of_singleton; reflexivity)).
Defined.

(** C4: [copy_dir] always returns normally; whenever the body of its
    [try] raises, the file system is left as the failed copy left it and
    one line is printed, made of the source path and the text of the
    error. *)
Theorem copy_dir_swallows (E : env) (src dst : path)
    (exclude : option (gset string)) (w : world) :
  (copy_dir E src dst exclude w).2 = Normal ∧
  ∀ w' ex, copy_dir_body E src dst exclude w = (w', Raised ex) →
    fs (copy_dir E src dst exclude w).1 = fs w' ∧
    stdout (copy_dir E src dst exclude w).1 =
      stdout w' ++ ["Failed to copy: " +:+ Path.show src +:+ ";" +:+ newline
                    +:+ str_exn ex].
Proof.
  unfold copy_dir, try_except.
  destruct (copy_dir_body E src dst exclude w) as [w1 [|ex1]]; simpl.
  - split; [done|]. intros w' ex [=].
  - split; [done|]. by intros w' ex [= <- <-].
Qed.

Lemma copy_dir_swallows_witness :
  stdout (copy_dir Demo.E0 ["ext"; "proj"] ["work"] None Demo.w_copy).1 =
    ["Copying: ../ext/proj";
     "Failed to copy: /ext/proj;" +:+ newline +:+ "[Errno 17] File exists: '/work'"].
Proof.
  refine (eq_trans (proj2 (proj2 (copy_dir_swallows Demo.E0 ["ext"; "proj"]
    ["work"] None Demo.w_copy) _ (FileExistsError ["work"]) _)) _).
  - vm_compute. reflexivity.
  - vm_compute. reflexivity.
Defined.

(** C6: with a source that does not exist, [copy_dir] returns normally,
    leaves the file system as it was (so the destination is not
    created) and prints, after the announcing line, one line made of
    ["Failed to copy: "], the source path and the text of the error that
    scanning the source raised: [No such file or directory], or [Not a
    directory] when the source lies below a regular file, on the source
    path. *)
Theorem copy_dir_missing_src (E : env) (src dst : path)
    (exclude : option (gset string)) (w : world) :
  FS.stat (fs w) src = None →
  copy_dir E src dst exclude w =
  ({| fs := fs w;
      stdout := stdout w ++
        ["Copying: " +:+ relpath src (cwd E);
         "Failed to copy: " +:+ Path.show src +:+ ";" +:+ newline +:+
           str_exn (FS.missing_error (fs w) src)];
      calls := calls w ++ [CallCopytree src dst] |}, Normal) ∧
  (str_exn (FS.missing_error (fs w) src) =
     "[Errno 2] No such file or directory: '" +:+ Path.show src +:+ "'" ∨
   str_exn (FS.missing_error (fs w) src) =
     "[Errno 20] Not a directory: '" +:+ Path.show src +:+ "'").
Proof.
  intros Hsrc. split; [|apply missing_error_text].
  unfold copy_dir, try_except. rewrite copy_dir_body_eq.
  simpl. rewrite scandir_missing by done. simpl.
  unfold print, set_fs, failure_line. simpl. by rewrite <- (assoc_L (++)).
Qed.

Lemma copy_dir_missing_src_witness :
  copy_dir Demo.E0 ["ext"; "nope"] ["work"; "proj"] (Some {["bin"]}) Demo.w_copy =
  ({| fs := fs Demo.w_copy;
      stdout := ["Copying: ../ext/nope";
                 "Failed to copy: /ext/nope;" +:+ newline +:+
                 "[Errno 2] No such file or directory: '/ext/nope'"];
      calls := [CallCopytree ["ext"; "nope"] ["work"; "proj"]] |}, Normal) ∧
  FS.stat (fs Demo.w_copy) ["work"; "proj"] = None ∧
  stdout (copy_dir Demo.E0 ["ext"; "proj"; "Program.cs"; "x"] ["work"; "proj"]
            None Demo.w_copy).1 =
    ["Copying: ../ext/proj/Program.cs/x";
     "Failed to copy: /ext/proj/Program.cs/x;" +:+ newline +:+
     "[Errno 20] Not a directory: '/ext/proj/Program.cs/x'"].
Proof.
  assert (FS.stat (fs Demo.w_copy) ["ext"; "nope"] = None) as H1
    by (vm_compute; reflexivity).
  assert (FS.stat (fs Demo.w_copy) ["ext"; "proj"; "Program.cs"; "x"] = None)
    as H2 by (vm_compute; reflexivity).
  split; [|split].
  - exact (eq_trans (proj1 (copy_dir_missing_src Demo.E0 ["ext"; "nope"]
             ["work"; "proj"] (Some {["bin"]}) Demo.w_copy H1))
             ltac:(vm_compute; reflexivity)).
  - vm_compute. reflexivity.
  - exact (eq_trans (f_equal (λ r, stdout r.1)
             (proj1 (copy_dir_missing_src Demo.E0
                ["ext"; "proj"; "Program.cs"; "x"] ["work"; "proj"] None
                Demo.w_copy H2)))
             ltac:(vm_compute; reflexivity)).
Defined.

(** C10: omitting [exclude] (or passing [None]) is the same as passing
    the empty set, and then [ignore] names nothing to skip. *)
Theorem copy_dir_default_exclude :
  (∀ E src dst w, copy_dir E src dst None w = copy_dir E src dst (Some ∅) w) ∧
  (∀ src path names, ignore src (set_or_empty None) path names = []).
Proof.
  split; [done|]. intros src path names. unfold ignore, set_or_empty. simpl.
  induction names as [|name names IH]; [done|].
  rewrite filter_cons, IH. case_decide as H; [|done].
  destruct H as [H|H]; by apply not_elem_of_empty in H.
Qed.

(** C7: after a [copy_dir] whose body succeeded, running the same body
    again raises [FileExistsError] on the destination and writes nothing,
    so the second [copy_dir] only prints its failure line. *)
Theorem copy_dir_twice_fails (E : env) (src dst : path)
    (exclude : option (gset string)) (w w1 : world) :
  copy_dir_body E src dst exclude w = (w1, Normal) →
  ∃ w2,
    copy_dir_body E src dst exclude w1 = (w2, Raised (FileExistsError dst)) ∧
    fs w2 = fs w1 ∧
    copy_dir E src dst exclude w1 =
      (print (failure_line src (FileExistsError dst)) w2, Normal).
Proof.
  intros H1. apply copy_dir_body_Normal in H1.
  assert (FS.stat (fs w1) src = Some Dir ∧ is_Some (FS.stat (fs w1) dst) ∧
          is_Some (FS.stat (fs w1) (dirname dst))) as (Hsrc & Hdst & Hpar).
  { pose proof (copytree_writes _ _ _ _ _ _ _ _ H1) as Hw.
    simpl in H1.
    destruct (FS.scandir (fs w) src) as [e|entries] eqn:Hscan; [congruence|].
    apply scandir_inr in Hscan.
    destruct (FS.makedirs (fs w) dst) as [σ1 [e|]] eqn:Hmk; [congruence|].
    apply makedirs_ok in Hmk as (Hnil & Hd & Hp & _).
    destruct (FS.copy_entries _ _ _ _ _ _ _ _) as [σ2 res] eqn:Hloop.
    assert (σ2 = fs w1) as -> by (destruct res as [e|[|]]; congruence).
    apply copy_entries_writes in Hloop; [|apply copytree_writes].
    split; [exact (writes_below_stat_dir _ _ _ _ Hw Hscan)|]. split.
    - exists Dir. rewrite stat_lookup by done.
      exact (writes_below_dir _ _ _ _ Hloop Hd).
    - exists Dir. exact (writes_below_stat_dir _ _ _ _ Hloop Hp). }
  assert (copy_dir_body E src dst exclude w1 =
          (set_fs (fs w1) (log_call (CallCopytree src dst)
             (print ("Copying: " +:+ relpath src (cwd E)) w1)),
           Raised (FileExistsError dst))) as Hbody.
  { rewrite copy_dir_body_eq. simpl.
    destruct (scandir_dir _ _ Hsrc) as [entries ->].
    by rewrite makedirs_exists. }
  eexists. split; [exact Hbody|]. split; [done|].
  unfold copy_dir, try_except. by rewrite Hbody.
Qed.

Lemma copy_dir_twice_fails_witness :
  ∃ w1, copy_dir_body Demo.E0 ["ext"; "proj"] ["work"; "proj"]
          (Some {["bin"; "obj"]}) Demo.w_copy = (w1, Normal) ∧
        (copy_dir_body Demo.E0 ["ext"; "proj"] ["work"; "proj"]
           (Some {["bin"; "obj"]}) w1).2
        = Raised (FileExistsError ["work"; "proj"]).
Proof.
  eexists. split.
  - vm_compute. reflexivity.
  - match goal with
    | |- (copy_dir_body ?E ?s ?d ?x ?w1).2 = _ =>
        destruct (copy_dir_twice_fails E s d x Demo.w_copy w1) as (w2 & H & _)
    end.
    + vm_compute. reflexivity.
    + rewrite H. reflexivity.
Defined.

(** ** Well-formed trees and reachable entries *)

Section Reach.

Implicit Types (σ : gmap path node) (p k d q r : path) (X : gset string).

(** In a well-formed tree everything above an entry is a directory. *)
Lemma wf_ancestor σ p r :
  FS.wf σ → is_Some (σ !! (p ++ r)) → r ≠ [] → FS.stat σ p = Some Dir.
Proof.
  intros Hwf. induction r as [|x r IH] using rev_ind; [done|].
  intros [n Hn] _. rewrite (assoc_L (++)) in Hn.
  pose proof (Hwf _ _ Hn) as Hd. simpl in Hd.
  unfold dirname in Hd. rewrite removelast_last in Hd.
  destruct r as [|y r]; [by rewrite app_nil_r in Hd|].
  apply IH; [|done]. exists Dir.
  rewrite <- Hd. symmetry. apply stat_lookup. by destruct p.
Qed.

Lemma wf_below_None σ d r :
  FS.wf σ → FS.stat σ d = None → σ !! (d ++ r) = None.
Proof.
  intros Hwf Hd. destruct r as [|x r].
  - rewrite app_nil_r. by apply stat_None_inv in Hd as [_ ?].
  - destruct (σ !! (d ++ x :: r)) as [n|] eqn:Hn; [|done].
    rewrite (wf_ancestor σ d (x :: r)) in Hd; [done|done| |done].
    by eexists.
Qed.

Lemma reachable_nil X q : reachable X q [].
Proof. intros r1 Hne Hpre. apply prefix_nil_inv in Hpre. done. Qed.

Lemma reachable_cons X q name r :
  ¬ excluded X (q ++ [name]) → reachable X (q ++ [name]) r →
  reachable X q (name :: r).
Proof.
  intros Hname Hr r1 Hne Hpre. destruct r1 as [|y r1]; [done|].
  apply prefix_cons_inv_1 in Hpre as Hy. subst y.
  apply prefix_cons_inv_2 in Hpre.
  destruct r1 as [|z r1]; [done|].
  specialize (Hr (z :: r1) ltac:(done) Hpre).
  by rewrite <- (assoc_L (++)) in Hr.
Qed.

Lemma reachable_cons_inv X q name r :
  reachable X q (name :: r) →
  ¬ excluded X (q ++ [name]) ∧ reachable X (q ++ [name]) r.
Proof.
  intros H. split.
  - apply H; [done|]. by apply prefix_cons, prefix_nil.
  - intros r1 Hne Hpre. rewrite <- (assoc_L (++)). simpl.
    apply (H (name :: r1)); [done|]. by apply prefix_cons.
Qed.

Lemma reachable_not_excluded X r :
  r ≠ [] → reachable X [] r → ¬ excluded X r.
Proof. intros Hne H. by apply (H r). Qed.

End Reach.

(** ** [copytree]: what a successful copy establishes *)

Section CopyOk.

Variables (L : gset path) (X : gset string) (root : path).
Implicit Types (σ : gmap path node) (p k d q r : path).

Lemma copy_entries_inr_nil rec ign src d entries σ errs σ' :
  FS.copy_entries rec L ign src d entries σ errs = (σ', inr []) → errs = [].
Proof.
  revert σ errs. induction entries as [|[name isdir] rest IH]; intros σ errs; simpl.
  - by intros [= _ ->].
  - case_decide; [apply IH|].
    destruct (if isdir then rec (join src name) (join d name) σ
              else FS.copy2 L σ (join src name) (join d name)) as [σ1 r].
    destruct r as [[]|]; try done; try apply IH;
      intros Hr; apply IH in Hr; by apply app_eq_nil in Hr as [? _].
Qed.

Lemma copy_entries_inl rec ign src d entries σ errs σ' e :
  FS.copy_entries rec L ign src d entries σ errs = (σ', inl e) → e = RecursionError.
Proof.
  revert σ errs. induction entries as [|[name isdir] rest IH]; intros σ errs; simpl.
  - done.
  - case_decide; [apply IH|].
    destruct (if isdir then rec (join src name) (join d name) σ
              else FS.copy2 L σ (join src name) (join d name)) as [σ1 r].
    destruct r as [[]|]; try apply IH. by intros [= _ <-].
Qed.

(** One step of the loop that ended without an error. *)
Lemma copy_entries_step rec ign src d name isdir rest σ σ' :
  rec_ok X root rec →
  name ∉ ign →
  FS.copy_entries rec L ign src d ((name, isdir) :: rest) σ [] = (σ', inr []) →
  ∃ σ1,
    (if isdir then rec (join src name) (join d name) σ
     else FS.copy2 L σ (join src name) (join d name)) = (σ1, None) ∧
    FS.copy_entries rec L ign src d rest σ1 [] = (σ', inr []).
Proof.
  intros [_ Hrec] Hign. simpl. rewrite decide_False by done.
  destruct (if isdir then rec (join src name) (join d name) σ
            else FS.copy2 L σ (join src name) (join d name)) as [σ1 r] eqn:Hstep.
  intros Hr. exists σ1.
  destruct r as [ex|]; [|done]. exfalso.
  destruct ex; try done;
    try (apply copy_entries_inr_nil in Hr; simpl in Hr; done).
  simpl in Hr. pose proof (copy_entries_inr_nil _ _ _ _ _ _ _ _ Hr) as ->.
  destruct isdir.
  - by apply Hrec in Hstep.
  - apply copy2_fail_unchanged in Hstep as Heq. subst σ1.
    unfold FS.copy2 in Hstep.
    repeat (case_match; simplify_eq);
      match goal with
      | H : FS.missing_error ?τ ?p = _ |- _ =>
          by destruct (missing_error_cases τ p) as [Hm|Hm]; rewrite Hm in H
      end.
Qed.


Lemma prefix_join_inv k d name :
  k `prefix_of` join d name → k = join d name ∨ k `prefix_of` d.
Proof.
  unfold join. intros [r Hr]. destruct r as [|y r _] using rev_ind.
  - left. by rewrite app_nil_r in Hr.
  - right. rewrite (assoc_L (++)) in Hr. apply app_inj_tail in Hr as [-> _].
    by apply prefix_app_r.
Qed.

(** The loop, started in a fresh directory [d] on the entries scanned at
    [root ++ q]. *)
Lemma copy_entries_ok rec ign q d :
  rec_ok X root rec → d ≠ [] →
  ∀ entries σ σ',
    (∀ name, name ∈ entries.*1 → name ∈ ign ↔ excluded X (q ++ [name])) →
    FS.wf σ → σ !! d = Some Dir →
    NoDup entries.*1 →
    (∀ name b, (name, b) ∈ entries →
       ∃ n, σ !! (root ++ q ++ [name]) = Some n ∧ b = is_dir n) →
    (∀ name r, name ∈ entries.*1 → σ !! (d ++ name :: r) = None) →
    FS.copy_entries rec L ign (root ++ q) d entries σ [] = (σ', inr []) →
    FS.wf σ' ∧
    (∀ k n, σ !! k = Some n → σ' !! k = Some n) ∧
    (∀ k, is_Some (σ' !! k) →
          is_Some (FS.stat σ k) ∨
          ∃ name r, name ∈ entries.*1 ∧ k = d ++ name :: r ∧
                    reachable X q (name :: r)) ∧
    (∀ name r c, name ∈ entries.*1 →
       σ !! (root ++ q ++ name :: r) = Some (File c) →
       reachable X q (name :: r) →
       σ' !! (d ++ name :: r) = Some (File c)).
Proof.
  intros Hrec Hd. induction entries as [|[name isdir] rest IH];
    intros σ σ' Hign Hwf Hdir Hnd Hent Hfresh Hrun.
  { simpl in Hrun. injection Hrun as <-. split; [done|]. split; [done|].
    split.
    - intros k Hk. left. destruct k; [by eexists|done].
    - intros name r c Hin. by apply elem_of_nil in Hin. }
  simpl in Hnd. apply NoDup_cons in Hnd as [Hname Hnd].
  assert (∀ name', name' ∈ rest.*1 → name' ∈ ((name, isdir) :: rest).*1) as Hsub.
  { intros name' Hin. simpl. by right. }
  destruct (decide (name ∈ ign)) as [Hskip|Hkeep].
  - (* the entry is skipped *)
    simpl in Hrun. rewrite decide_True in Hrun by done.
    destruct (IH σ σ') as (Hwf' & Hpres & Hkeys & Hcopy); try done.
    { intros name' Hin. apply Hign. by apply Hsub. }
    { intros name' b Hin. apply Hent. by right. }
    { intros name' r Hin. apply Hfresh. by apply Hsub. }
    split; [done|]. split; [done|]. split.
    + intros k Hk. destruct (Hkeys k Hk) as [?|(name' & r & Hin & -> & Hr)];
        [by left|right]. exists name', r. split; [by apply Hsub|done].
    + intros name' r c Hin Hf Hr. simpl in Hin.
      apply elem_of_cons in Hin as [->|Hin]; [|by apply Hcopy].
      apply reachable_cons_inv in Hr as [Hne _].
      apply Hign in Hskip; [done|]. simpl. by left.
  - (* the entry is copied *)
    destruct (copy_entries_step _ _ _ _ _ _ _ _ _ Hrec Hkeep Hrun)
      as (σ1 & Hstep & Hrest).
    assert (¬ excluded X (q ++ [name])) as Hnex.
    { intros Hex. apply Hkeep, Hign; [simpl; by left|done]. }
    destruct (Hent name isdir ltac:(by left)) as (n & Hn & Hisdir).
    assert (FS.wf σ1 ∧
            (∀ k n, σ !! k = Some n → σ1 !! k = Some n) ∧
            (∀ k, is_Some (σ1 !! k) → is_Some (FS.stat σ k) ∨
                  ∃ r, k = d ++ name :: r ∧ reachable X q (name :: r)) ∧
            (∀ r c, σ !! (root ++ q ++ name :: r) = Some (File c) →
                    reachable X q (name :: r) →
                    σ1 !! (d ++ name :: r) = Some (File c)))
      as (Hwf1 & Hpres1 & Hkeys1 & Hcopy1).
    { destruct isdir.
      - (* a directory: the recursive call *)
        unfold join in Hstep. rewrite <- (assoc_L (++)) in Hstep.
        destruct Hrec as [Hrec _].
        apply Hrec in Hstep as (Hwf1 & Hnone & Hpres1 & Hkeys1 & Hcopy1); [|done].
        split; [done|]. split; [done|]. split.
        + intros k Hk.
          destruct (Hkeys1 k Hk) as [Hs|[Hpre|(r & -> & Hr)]]; [by left|..].
          * apply prefix_join_inv in Hpre as [->|Hpre].
            -- right. exists []. split; [done|].
               apply reachable_cons; [done|apply reachable_nil].
            -- left. exists Dir. destruct Hpre as [r' ->].
               destruct r' as [|y r'].
               ++ rewrite app_nil_r in *. by rewrite stat_lookup.
               ++ apply (wf_ancestor σ k (y :: r')); [done| |done].
                  by eexists.
          * right. exists r. split; [by rewrite <- (assoc_L (++))|].
            by apply reachable_cons.
        + intros r c Hf Hr. apply reachable_cons_inv in Hr as [_ Hr].
          specialize (Hcopy1 r c). rewrite <- !(assoc_L (++)) in Hcopy1.
          apply Hcopy1; [|done]. simpl.
          rewrite stat_lookup; [done|]. by destruct root, q.
      - (* a regular file: [copy2] *)
        apply copy2_ok in Hstep
          as (c & target & Hsrc & _ & _ & _ & Hnd' & Ht & Hpar & ->).
        pose proof (Hfresh name [] ltac:(simpl; by left)) as Hnone.
        assert (target = join d name) as ->.
        { apply Ht. rewrite stat_join. unfold join. by rewrite Hnone. }
        unfold join in *. specialize (Hpar Hnone). unfold dirname in Hpar.
        rewrite removelast_last in Hpar.
        rewrite stat_lookup, <- (assoc_L (++)), Hn in Hsrc by (by destruct root, q).
        injection Hsrc as ->.
        split; [|split; [|split]].
        + apply wf_insert; [done| |by rewrite Hnone].
          unfold dirname. by rewrite removelast_last.
        + intros k n Hk. rewrite lookup_insert_ne; [done|]. congruence.
        + intros k Hk. destruct (decide (d ++ [name] = k)) as [<-|Hne].
          * right. exists []. split; [done|].
            apply reachable_cons; [done|apply reachable_nil].
          * left. rewrite lookup_insert_ne in Hk by done.
            destruct k; [by eexists|done].
        + intros r c' Hf Hr. destruct r as [|y r].
          * rewrite Hn in Hf. injection Hf as <-. by rewrite lookup_insert_eq.
          * exfalso.
            assert (FS.stat σ (root ++ q ++ [name]) = Some Dir) as Hdn.
            { apply (wf_ancestor σ _ (y :: r)); [done| |done].
              rewrite <- !(assoc_L (++)). simpl. by eexists. }
            rewrite stat_lookup, Hn in Hdn by (by destruct root, q).
            done. }
    destruct (IH σ1 σ') as (Hwf' & Hpres & Hkeys & Hcopy); try done.
    { intros name' Hin. apply Hign. by apply Hsub. }
    { by apply Hpres1. }
    { intros name' b Hin. destruct (Hent name' b ltac:(by right)) as (n' & ? & ?).
      exists n'. split; [by apply Hpres1|done]. }
    { intros name' r Hin.
      destruct (σ1 !! (d ++ name' :: r)) as [n'|] eqn:Hn'; [|done]. exfalso.
      destruct (Hkeys1 (d ++ name' :: r) ltac:(by eexists))
        as [Hs|(r0 & Heq & _)].
      - rewrite stat_lookup in Hs by (by destruct d).
        rewrite (Hfresh name' r) in Hs; [by destruct Hs|by apply Hsub].
      - apply (inj (app d)) in Heq. injection Heq as -> _. done. }
    split; [done|]. split; [by intros k n' Hk; apply Hpres, Hpres1|]. split.
    + intros k Hk. destruct (Hkeys k Hk) as [Hs|(name' & r & Hin & -> & Hr)].
      * assert (is_Some (σ1 !! k) ∨ k = []) as [Hk1| ->].
        { destruct k; [by right|by left]. }
        -- destruct (Hkeys1 k Hk1) as [?|(r & -> & Hr)]; [by left|right].
           exists name, r. split; [simpl; by left|done].
        -- left. by eexists.
      * right. exists name', r. split; [by apply Hsub|done].
    + intros name' r c Hin Hf Hr. simpl in Hin.
      apply elem_of_cons in Hin as [->|Hin].
      * by apply Hpres, Hcopy1.
      * apply Hcopy; [done| |done]. by apply Hpres1.
Qed.


Lemma makedirs_rev_error σ rp σ' ex :
  FS.makedirs_rev σ rp = (σ', Some ex) →
  ∀ errs, ex ≠ ShutilError errs.
Proof.
  assert (∀ σ p σ' ex, FS.mkdir σ p = (σ', Some ex) →
            ∀ errs, ex ≠ ShutilError errs) as Hmk.
  { intros τ p τ' e. unfold FS.mkdir.
    repeat case_match; intros; simplify_eq; try done.
    match goal with
    | |- FS.missing_error ?t ?q ≠ _ =>
        by destruct (missing_error_cases t q) as [-> | ->]
    end. }
  revert σ σ' ex. induction rp as [|x rhead IH]; intros σ σ' ex; simpl.
  - apply Hmk.
  - destruct (FS.stat σ (reverse rhead)); [apply Hmk|].
    destruct (FS.makedirs_rev σ rhead) as [σ1 [e|]] eqn:Hrec; [|apply Hmk].
    specialize (IH _ _ _ Hrec).
    destruct e; try apply Hmk; intros; simplify_eq; done.
Qed.

(** [Error(errors)] is only raised with a non-empty list. *)
Lemma copytree_never_empty_error ign fuel s d σ σ' :
  FS.copytree L ign fuel s d σ ≠ (σ', Some (ShutilError [])).
Proof.
  destruct fuel as [|fuel]; simpl; [done|].
  unfold FS.scandir, FS.listdir.
  destruct (FS.stat σ s) as [[|]|]; try done.
  2:{ intros [= _ Hm].
      by destruct (missing_error_cases σ s) as [Hc|Hc]; rewrite Hc in Hm. }
  destruct (FS.makedirs σ d) as [σ1 [e|]] eqn:Hmk.
  { unfold FS.makedirs in Hmk. intros [= _ ->].
    by apply (makedirs_rev_error _ _ _ _ Hmk []). }
  destruct (FS.copy_entries _ _ _ _ _ _ _ _) as [σ2 [e|[|]]] eqn:Hloop; try done.
  apply copy_entries_inl in Hloop as ->. done.
Qed.

(** A [copytree] that raises nothing has copied every reachable file. *)
Lemma copytree_ok fuel :
  rec_ok X root (FS.copytree L (ignore root X) fuel).
Proof.
  split; [|intros s d σ σ'; apply copytree_never_empty_error].
  induction fuel as [|fuel IH]; intros q d σ σ' Hwf; simpl; [done|].
  destruct (FS.scandir σ (root ++ q)) as [e|entries] eqn:Hscan; [done|].
  destruct (FS.makedirs σ d) as [σ1 [e|]] eqn:Hmk; [done|].
  destruct (FS.copy_entries _ _ _ _ _ _ _ _) as [σ2 [e|[|]]] eqn:Hloop;
    try done.
  intros [= <-].
  pose proof (makedirs_creates _ _ _ _ Hmk) as Hcr.
  pose proof (makedirs_rev_wf _ _ _ _ Hwf Hmk) as Hwf1.
  apply makedirs_ok in Hmk as (Hd & Hdir & _ & Hnone).
  assert (∀ k n, σ !! k = Some n → σ1 !! k = Some n) as Hpres0.
  { intros k n Hk. destruct (Hcr k) as [->|(_ & ? & _)]; congruence. }
  apply copy_entries_ok in Hloop as (Hwf2 & Hpres & Hkeys & Hcopy); try done.
  - split; [done|]. split; [done|].
    split; [by intros k n Hk; apply Hpres, Hpres0|]. split.
    + intros k Hk. destruct (Hkeys k Hk) as [Hs|(name & r & _ & -> & Hr)].
      * destruct k as [|x k]; [left; by eexists|].
        simpl in Hs. destruct (Hcr (x :: k)) as [Heq|(Hpre & _)].
        -- left. simpl. by rewrite <- Heq.
        -- right. by left.
      * right. right. by exists (name :: r).
    + intros r c Hf Hr. destruct r as [|name r].
      * rewrite app_nil_r in Hf. apply scandir_inr in Hscan. congruence.
      * rewrite stat_lookup in Hf by (by destruct root, q).
        apply Hcopy; [|by apply Hpres0|done].
        assert (is_Some (σ !! (root ++ q ++ [name]))) as [n Hn].
        { destruct r as [|y r]; [by eexists|].
          assert (FS.stat σ (root ++ q ++ [name]) = Some Dir) as Hdn.
          { apply (wf_ancestor σ _ (y :: r)); [done| |done].
            rewrite <- !(assoc_L (++)). simpl. by eexists. }
          rewrite stat_lookup in Hdn by (by destruct root, q). by eexists. }
        apply list_elem_of_fmap. exists (name, is_dir n). split; [done|].
        apply (scandir_entries _ _ _ _ _ Hscan). exists n.
        unfold join. by rewrite <- (assoc_L (++)).
  - split; [done|]. intros s d' τ τ'. apply copytree_never_empty_error.
  - intros name Hin. rewrite ignore_elem_of. tauto.
  - apply scandir_NoDup in Hscan. done.
  - intros name b Hin. apply (scandir_entries _ _ _ _ _ Hscan) in Hin
      as (n & Hn & ->). exists n. split; [|done]. apply Hpres0.
    unfold join in Hn. by rewrite <- (assoc_L (++)) in Hn.
  - intros name r _.
    destruct (σ1 !! (d ++ name :: r)) as [n|] eqn:Hn; [|done]. exfalso.
    destruct (Hcr (d ++ name :: r)) as [Heq|(Hpre & _)].
    + rewrite Hn in Heq. symmetry in Heq.
      by rewrite (wf_below_None σ d (name :: r)) in Heq.
    + destruct Hpre as [r' Hr']. rewrite <- (assoc_L (++)) in Hr'.
      apply (f_equal length) in Hr'. rewrite !length_app in Hr'. simpl in Hr'. lia.
Qed.

End CopyOk.

(** C2, as stated, fails on a file below an excluded directory: with
    [exclude = {"bin", "obj"}] the copy succeeds, the file [bin/x.bin] of
    the source has neither its name nor its relative path in [exclude],
    and it is not under the destination. *)
Lemma copy_dir_omits_below_excluded_dir :
  let X : gset string := {["bin"; "obj"]} in
  let src := ["ext"; "proj"] in
  let dst := ["work"; "proj"] in
  let r := copy_dir_body Demo.E0 src dst (Some X) Demo.w_copy in
  r.2 = Normal ∧
  fs Demo.w_copy !! (src ++ ["bin"; "x.bin"]) = Some (File "XB") ∧
  ("x.bin" ∉ X) ∧
  (relpath (src ++ ["bin"; "x.bin"]) src ∉ X) ∧
  fs r.1 !! (dst ++ ["bin"; "x.bin"]) = None.
Proof.
  cbv zeta.
  split; [vm_compute; reflexivity|]. split; [vm_compute; reflexivity|].
  split; [apply (bool_decide_unpack _); vm_compute; exact I|].
  split; [apply (bool_decide_unpack _); vm_compute; exact I|].
  vm_compute. reflexivity.
Qed.

(** C2 (amended): after a [copy_dir] whose body succeeded on a
    well-formed tree, every regular file that was under [src] when the
    copy started, and such that neither it nor any directory between
    [src] and it has its name or its path relative to [src] in
    [exclude], is at the same relative place under [dst] with the same
    content (and still under [src]); and no entry under [dst] has its
    name or its path relative to [dst] in [exclude]. *)
Theorem copy_dir_copies_reachable (E : env) (src dst : path)
    (exclude : option (gset string)) (w w' : world) :
  FS.wf (fs w) →
  copy_dir_body E src dst exclude w = (w', Normal) →
  (∀ r c, FS.stat (fs w) (src ++ r) = Some (File c) →
          reachable (set_or_empty exclude) [] r →
          fs w' !! (dst ++ r) = Some (File c) ∧
          fs w' !! (src ++ r) = Some (File c)) ∧
  (∀ r, r ≠ [] → is_Some (fs w' !! (dst ++ r)) →
        (basename r ∉ set_or_empty exclude) ∧
        (String.concat "/" r ∉ set_or_empty exclude)).
Proof.
  intros Hwf Hrun. apply copy_dir_body_Normal in Hrun.
  rewrite <- (app_nil_r src) in Hrun at 2.
  apply copytree_ok in Hrun as (_ & Hnone & Hpres & Hkeys & Hcopy); [|done].
  split.
  - intros r c Hf Hr. split; [by apply Hcopy|].
    apply Hpres. destruct r as [|x r].
    + rewrite app_nil_r in Hf |- *. destruct src; [done|done].
    + rewrite stat_lookup in Hf; [done|]. by destruct src.
  - intros r Hne Hin.
    assert (reachable (set_or_empty exclude) [] r) as Hr.
    { destruct (Hkeys _ Hin) as [Hs|[Hpre|(r' & Heq & Hr')]].
      - rewrite stat_lookup in Hs by (by destruct dst, r).
        rewrite (wf_below_None _ dst r) in Hs; [by destruct Hs|done|done].
      - destruct Hpre as [r' Hr']. rewrite <- (assoc_L (++)) in Hr'.
        apply (f_equal length) in Hr'. rewrite !length_app in Hr'.
        destruct r; [done|]. simpl in Hr'. lia.
      - by apply (inj (app dst)) in Heq as ->. }
    apply reachable_not_excluded in Hr; [|done].
    unfold excluded in Hr. tauto.
Qed.

Lemma copy_dir_copies_reachable_witness :
  ∃ w', copy_dir_body Demo.E0 ["ext"; "proj"] ["work"; "proj"]
          (Some {["bin"; "obj"]}) Demo.w_copy = (w', Normal) ∧
        fs w' !! ["work"; "proj"; "Program.cs"] = Some (File "PC").
Proof.
  eexists. split.
  - vm_compute. reflexivity.
  - match goal with
    | |- fs ?w' !! _ = _ =>
        refine (proj1 (proj1 (copy_dir_copies_reachable Demo.E0
          ["ext"; "proj"] ["work"; "proj"] (Some {["bin"; "obj"]})
          Demo.w_copy w' _ _) ["Program.cs"] "PC" _ _))
    end.
    + apply (bool_decide_unpack _). vm_compute. exact I.
    + vm_compute. reflexivity.
    + vm_compute. reflexivity.
    + intros r1 Hne [r2 Hr2].
      destruct r1 as [|x [|y r1]]; [done| |done].
      injection Hr2 as <-. unfold excluded. simpl.
      intros [Hx|Hx]; revert Hx; apply (bool_decide_unpack _);
        vm_compute; exact I.
Defined.

(** ** [rmtree]: what it may remove *)

Section RmtreeFrame.

Implicit Types (σ : gmap path node) (p k : path) (L : gset path).

Lemma removes_below_refl p σ : removes_below p σ σ.
Proof. intros k. by left. Qed.

Lemma removes_below_trans p σ1 σ2 σ3 :
  removes_below p σ1 σ2 → removes_below p σ2 σ3 → removes_below p σ1 σ3.
Proof.
  intros H12 H23 k.
  destruct (H23 k) as [E2|(P2 & N2 & D2)]; [|by right].
  destruct (H12 k) as [E1|(P1 & N1 & D1)]; [left; congruence|right].
  split; [done|]. split; [done|]. congruence.
Qed.

Lemma removes_under_below p name σ σ' :
  removes_under (join p name) σ σ' → removes_below p σ σ'.
Proof.
  intros H k. destruct (H k) as [?|[Hpre Hk]]; [by left|right].
  split; [etrans; [|done]; by apply prefix_app_r|]. split; [|done].
  intros ->. by apply (prefix_snoc_not k name).
Qed.

Lemma removes_below_under p σ σ' : removes_below p σ σ' → removes_under p σ σ'.
Proof. intros H k. destruct (H k) as [?|(? & _ & ?)]; [by left|by right]. Qed.

Lemma removes_under_trans p σ1 σ2 σ3 :
  removes_under p σ1 σ2 → removes_under p σ2 σ3 → removes_under p σ1 σ3.
Proof.
  intros H12 H23 k.
  destruct (H23 k) as [E2|(P2 & D2)]; [|by right].
  destruct (H12 k) as [E1|(P1 & D1)]; [left; congruence|right].
  split; [done|]. congruence.
Qed.

Lemma delete_removes_under σ k : removes_under k σ (delete k σ).
Proof.
  intros k'. destruct (decide (k = k')) as [<-|Hne].
  - right. by rewrite lookup_delete_eq.
  - left. by rewrite lookup_delete_ne.
Qed.

Lemma try_unlink_removes L σ k : removes_under k σ (FS.try_unlink L σ k).
Proof.
  unfold FS.try_unlink. case_decide; [by left|apply delete_removes_under].
Qed.

Lemma try_rmdir_removes L σ k : removes_under k σ (FS.try_rmdir L σ k).
Proof.
  unfold FS.try_rmdir. case_decide; [by left|].
  destruct (FS.names σ k); [apply delete_removes_under|by left].
Qed.

Lemma rmtree_entries_removes rec L p entries σ σ' r :
  (∀ τ q τ' r', rec τ q = (τ', r') → removes_under q τ τ') →
  FS.rmtree_entries rec L p entries σ = (σ', r) → removes_below p σ σ'.
Proof.
  intros Hrec. revert σ.
  induction entries as [|[name isdir] rest IH]; intros σ; simpl.
  - intros [= <- _]. apply removes_below_refl.
  - destruct isdir.
    + destruct (rec σ (join p name)) as [σ1 [ex|]] eqn:Hstep.
      * intros [= <- _]. by apply (removes_under_below p name), (Hrec _ _ _ _ Hstep).
      * intros Hrest. apply IH in Hrest.
        apply (removes_below_trans _ _ (FS.try_rmdir L σ1 (join p name))); [|done].
        apply (removes_under_below p name).
        apply (removes_under_trans _ _ σ1); [by apply (Hrec _ _ _ _ Hstep)|].
        apply try_rmdir_removes.
    + intros Hrest. apply IH in Hrest.
      apply (removes_below_trans _ _ (FS.try_unlink L σ (join p name))); [|done].
      apply (removes_under_below p name), try_unlink_removes.
Qed.

Lemma rmtree_safe_fd_removes L fuel σ p σ' r :
  FS.rmtree_safe_fd L fuel σ p = (σ', r) → removes_below p σ σ'.
Proof.
  revert σ p σ' r. induction fuel as [|fuel IH]; intros σ p σ' r; simpl.
  - intros [= <- _]. apply removes_below_refl.
  - destruct (FS.scandir σ p) as [e|entries].
    + intros [= <- _]. apply removes_below_refl.
    + apply rmtree_entries_removes. intros τ q τ' r' Hq.
      by apply removes_below_under, (IH _ _ _ _ Hq).
Qed.

(** [rmtree] only removes, and only at or below the path it is given,
    whatever its outcome. *)
Lemma rmtree_removes L fuel σ p σ' r :
  FS.rmtree L fuel σ p = (σ', r) → removes_under p σ σ'.
Proof.
  unfold FS.rmtree. destruct (FS.stat σ p) as [[|]|];
    try (intros [= <- _]; by left).
  destruct (FS.rmtree_safe_fd L fuel σ p) as [σ1 [ex|]] eqn:Hrun;
    apply rmtree_safe_fd_removes, removes_below_under in Hrun.
  - by intros [= <- _].
  - intros [= <- _]. apply (removes_under_trans _ _ σ1); [done|].
    apply try_rmdir_removes.
Qed.

(** On a regular file or a missing path [rmtree] does nothing at all. *)
Lemma rmtree_not_dir L fuel σ p :
  FS.stat σ p ≠ Some Dir → FS.rmtree L fuel σ p = (σ, None).
Proof. unfold FS.rmtree. by destruct (FS.stat σ p) as [[|]|]. Qed.




End RmtreeFrame.

(** ** [rmtree] within the recursion depth *)

Section RmtreeSpec.

Implicit Types (σ : gmap path node) (p k : path) (L : gset path).








Lemma removes_under_outside p σ σ' k :
  removes_under p σ σ' → ¬ p `prefix_of` k → σ' !! k = σ !! k.
Proof. intros H Hk. destruct (H k) as [?|[? _]]; done. Qed.




End RmtreeSpec.

(** ** [clear_dir]: the deletion loop *)

Section ClearLoop.

Variable E : env.
Variable path : path.
Variable keep : gset string.
Implicit Types (w : world) (items : list string) (k : Path.path).

Lemma shutil_rmtree_eq p w :
  shutil_rmtree E p w =
  let r := FS.rmtree (locked E) (S (recursion_depth E)) (fs w) p in
  (set_fs r.1 (log_call (CallRmtree p) w),
   match r.2 with None => Normal | Some ex => Raised ex end).
Proof.
  unfold shutil_rmtree. cbn [fs log_call].
  by destruct (FS.rmtree _ _ _ _) as [σ [ex|]].
Qed.

Lemma shutil_rmtree_removes p w :
  removes_under p (fs w) (fs (shutil_rmtree E p w).1).
Proof.
  rewrite shutil_rmtree_eq. cbn zeta.
  destruct (FS.rmtree _ _ _ _) as [σ r] eqn:Hrun. simpl.
  by apply rmtree_removes in Hrun.
Qed.


Lemma shutil_rmtree_calls p w :
  calls (shutil_rmtree E p w).1 = calls w ++ [CallRmtree p].
Proof. by rewrite shutil_rmtree_eq. Qed.

Lemma clear_items_cons item items w :
  clear_items E path keep (item :: items) w =
  if decide (item ∉ keep) then
    match (shutil_rmtree E (join path item) w).2 with
    | Normal => clear_items E path keep items (shutil_rmtree E (join path item) w).1
    | Raised ex => ((shutil_rmtree E (join path item) w).1, Raised ex)
    end
  else clear_items E path keep items w.
Proof.
  simpl. case_decide; [|done].
  by destruct (shutil_rmtree E (join path item) w) as [w' [|ex]].
Qed.


(** The [rmtree] calls made are on non-kept items, in listing order, and
    on all of them when no exception ends the loop. *)
Lemma clear_items_calls items w :
  ∃ attempted,
    calls (clear_items E path keep items w).1 =
      calls w ++ map (λ item, CallRmtree (join path item)) attempted ∧
    attempted `prefix_of` filter (λ item, item ∉ keep) items ∧
    ((clear_items E path keep items w).2 = Normal →
     attempted = filter (λ item, item ∉ keep) items).
Proof.
  revert w. induction items as [|item items IH]; intros w.
  { exists []. simpl. by rewrite app_nil_r. }
  rewrite clear_items_cons, filter_cons. case_decide as Hkeep; [|apply IH].
  destruct (shutil_rmtree E (join path item) w).2 eqn:Hout; simpl.
  - destruct (IH (shutil_rmtree E (join path item) w).1) as (att & Hc & Hp & Hn).
    exists (item :: att). rewrite Hc, shutil_rmtree_calls. simpl.
    rewrite <- (assoc_L (++)). split; [done|]. split.
    + by apply prefix_cons.
    + intros Hnorm. by rewrite Hn.
  - exists [item]. rewrite shutil_rmtree_calls. split; [done|]. split; [|done].
    apply prefix_cons, prefix_nil.
Qed.

(** Whatever its outcome, the loop only removes, and only at or below
    non-kept items. *)
Lemma clear_items_removes items w k :
  fs (clear_items E path keep items w).1 !! k = fs w !! k ∨
  ∃ item, item ∈ items ∧ (item ∉ keep) ∧ join path item `prefix_of` k ∧
          fs (clear_items E path keep items w).1 !! k = None.
Proof.
  revert w. induction items as [|item items IH]; intros w; [by left|].
  rewrite clear_items_cons. case_decide as Hkeep.
  - pose proof (shutil_rmtree_removes (join path item) w k) as Hstep.
    destruct (shutil_rmtree E (join path item) w).2 eqn:Hout; simpl.
    + destruct (IH (shutil_rmtree E (join path item) w).1)
        as [Heq|(item' & Hin & Hk' & Hpre & Hnone)].
      * destruct Hstep as [Heq'|[Hpre Hnone]]; [left; congruence|right].
        exists item. split; [by left|]. split; [done|]. split; [done|].
        congruence.
      * right. exists item'. split; [by right|done].
    + destruct Hstep as [Heq'|[Hpre Hnone]]; [by left|right].
      exists item. split; [by left|done].
  - destruct (IH w) as [Heq|(item' & Hin & Hk' & Hpre & Hnone)]; [by left|right].
    exists item'. split; [by right|done].
Qed.

Lemma clear_items_frame items w k :
  (∀ item, item ∈ items → item ∉ keep → ¬ join path item `prefix_of` k) →
  fs (clear_items E path keep items w).1 !! k = fs w !! k.
Proof.
  intros Hk. destruct (clear_items_removes items w k)
    as [?|(item & Hin & Hkeep & Hpre & _)]; [done|].
  by destruct (Hk item).
Qed.



(** A regular file directly under [path] outlives the loop: [rmtree]
    only removes directories. *)
Lemma clear_items_file_stays items w name c :
  fs w !! join path name = Some (File c) →
  fs (clear_items E path keep items w).1 !! join path name = Some (File c).
Proof.
  revert w. induction items as [|item items IH]; intros w Hf; [done|].
  rewrite clear_items_cons. case_decide as Hkeep; [|by apply IH].
  assert (fs (shutil_rmtree E (join path item) w).1 !! join path name
          = Some (File c)) as Hstep.
  { destruct (decide (item = name)) as [->|Hne].
    - rewrite shutil_rmtree_eq. cbn zeta.
      rewrite rmtree_not_dir; [done|]. rewrite stat_join, Hf. done.
    - rewrite (removes_under_outside _ _ _ _ (shutil_rmtree_removes _ w));
        [done|].
      apply (sibling_not_prefix path name item); [done|]. reflexivity. }
  destruct (shutil_rmtree E (join path item) w).2; simpl; [by apply IH|done].
Qed.



End ClearLoop.

(** ** [clear_dir] *)

Section ClearDir.

Variable E : env.
Implicit Types (w : world) (keep : option (gset string)).

Lemma clear_dir_on_dir path keep w :
  FS.stat (fs w) path = Some Dir →
  clear_dir E path keep w =
  clear_items E path (set_or_empty keep) (FS.names (fs w) path)
    (log_call (CallListdir path) w).
Proof. intros Hp. unfold clear_dir, FS.listdir. simpl. by rewrite Hp. Qed.

Lemma clear_dir_raises path keep w :
  FS.stat (fs w) path ≠ Some Dir →
  ∃ ex, clear_dir E path keep w = (log_call (CallListdir path) w, Raised ex).
Proof.
  intros Hp. unfold clear_dir, FS.listdir. simpl.
  destruct (FS.stat (fs w) path) as [[|]|]; by eauto.
Qed.

Lemma clear_dir_fs_frame path keep w k :
  (∀ item, item ∉ set_or_empty keep → ¬ join path item `prefix_of` k) →
  fs (clear_dir E path keep w).1 !! k = fs w !! k.
Proof.
  intros Hk. destruct (decide (FS.stat (fs w) path = Some Dir)) as [Hp|Hp].
  - rewrite clear_dir_on_dir by done. rewrite clear_items_frame; [done|].
    intros item _. apply Hk.
  - destruct (clear_dir_raises path keep w Hp) as [ex ->]. done.
Qed.

End ClearDir.

(** C8 (frame): [clear_dir] leaves every kept child of [path] and all
    that is nested in it as it was, and none of its library calls
    reaches such an entry: besides listing [path] itself it only calls
    [rmtree] on paths that are not at or above the entry. *)
Theorem clear_dir_kept_untouched (E : env) (path : path)
    (keep : option (gset string)) (w : world) (item : string) (k : Path.path) :
  item ∈ set_or_empty keep →
  join path item `prefix_of` k →
  fs (clear_dir E path keep w).1 !! k = fs w !! k ∧
  ∃ targets,
    calls (clear_dir E path keep w).1 =
      calls w ++ CallListdir path :: map CallRmtree targets ∧
    Forall (λ q, ¬ q `prefix_of` k) targets.
Proof.
  intros Hkeep Hk.
  assert (∀ item', item' ∉ set_or_empty keep → ¬ join path item' `prefix_of` k)
    as Hsib.
  { intros item' Hitem'. apply (sibling_not_prefix path item item'); [|done].
    intros ->. done. }
  split; [by apply clear_dir_fs_frame|].
  destruct (decide (FS.stat (fs w) path = Some Dir)) as [Hp|Hp].
  - rewrite clear_dir_on_dir by done.
    destruct (clear_items_calls E path (set_or_empty keep)
                (FS.names (fs w) path) (log_call (CallListdir path) w))
      as (attempted & Hcalls & Hpre & _).
    exists (map (join path) attempted). split.
    + rewrite Hcalls. simpl. rewrite <- (assoc_L (++)). simpl.
      by rewrite map_map.
    + apply Forall_forall. intros q Hq.
      apply list_elem_of_fmap in Hq as (i & -> & Hi).
      apply Hsib. destruct Hpre as [rest Hrest].
      assert (i ∈ filter (λ item, item ∉ set_or_empty keep)
                    (FS.names (fs w) path)) as Hin.
      { rewrite Hrest. apply elem_of_app. by left. }
      by apply list_elem_of_filter in Hin as [? _].
  - destruct (clear_dir_raises E path keep w Hp) as [ex ->]. simpl.
    exists []. split; [done|constructor].
Qed.

Lemma clear_dir_kept_untouched_witness :
  fs (clear_dir Demo.E0 ["work"] (Some {["sub"]}) Demo.w_clear).1
    !! ["work"; "sub"; "x"] = Some (File "X").
Proof.
  refine (eq_trans (proj1 (clear_dir_kept_untouched Demo.E0 ["work"]
    (Some {["sub"]}) Demo.w_clear "sub" ["work"; "sub"; "x"] _ _)) _).
  - apply (bool_decide_unpack _). vm_compute. exact I.
  - exists ["x"]. reflexivity.
  - vm_compute. reflexivity.
Defined.







(** C1 (the code at its failing input): with [keep = {"a.txt"}] and a
    directory holding [a.txt], [b.txt] and [sub/], the regular file
    [b.txt] is still there after [clear_dir]; only [sub/] is removed.
    [shutil.rmtree] removes directories only, and its error on a regular
    file is dropped by [ignore_errors=True]. *)
Theorem clear_dir_regular_file_stays :
  let w' := (clear_dir Demo.E0 ["work"] (Some {["a.txt"]}) Demo.w_clear).1 in
  fs w' !! ["work"; "a.txt"] = Some (File "A") ∧
  fs w' !! ["work"; "b.txt"] = Some (File "B") ∧
  fs w' !! ["work"; "sub"] = None ∧
  fs w' !! ["work"; "sub"; "x"] = None ∧
  calls w' = [CallListdir ["work"]; CallRmtree ["work"; "b.txt"];
              CallRmtree ["work"; "sub"]].
Proof. vm_compute. repeat split; reflexivity. Qed.

(** ** More on [clear_dir] *)

(** A regular file directly under [path] is still there after
    [clear_dir], whether its name is kept or not. *)
Theorem clear_dir_file_child_stays (E : env) (path : path)
    (keep : option (gset string)) (w : world) (item c : string) :
  fs w !! join path item = Some (File c) →
  fs (clear_dir E path keep w).1 !! join path item = Some (File c).
Proof.
  intros Hf. destruct (decide (FS.stat (fs w) path = Some Dir)) as [Hp|Hp].
  - rewrite clear_dir_on_dir by done. by apply clear_items_file_stays.
  - destruct (clear_dir_raises E path keep w Hp) as [ex ->]. done.
Qed.

Lemma clear_dir_file_child_stays_witness :
  fs (clear_dir Demo.E0 ["work"] None Demo.w_clear).1 !! ["work"; "b.txt"]
  = Some (File "B").
Proof.
  assert (fs Demo.w_clear !! join ["work"] "b.txt" = Some (File "B")) as Hf
    by (vm_compute; reflexivity).
  exact (clear_dir_file_child_stays Demo.E0 ["work"] None Demo.w_clear
           "b.txt" "B" Hf).
Defined.





(** ** [copytree] into a directory whose parent exists *)

Section CopyUnder.

Implicit Types (σ : gmap path node) (p k d : path) (L : gset path).

Lemma writes_under_refl d σ : writes_under d σ σ.
Proof. intros k. by left. Qed.

Lemma writes_under_trans d σ1 σ2 σ3 :
  writes_under d σ1 σ2 → writes_under d σ2 σ3 → writes_under d σ1 σ3.
Proof.
  intros H12 H23 k.
  destruct (H12 k) as [E1|(P1 & N1 & S1)], (H23 k) as [E2|(P2 & N2 & S2)].
  - left. congruence.
  - right. split; [done|]. split; congruence.
  - right. split; [done|]. split; congruence.
  - right. done.
Qed.

Lemma writes_under_prefix d d' σ σ' :
  d `prefix_of` d' → writes_under d' σ σ' → writes_under d σ σ'.
Proof.
  intros Hd H k. destruct (H k) as [?|(? & ? & ?)]; [by left|right].
  split; [by etrans|done].
Qed.

Lemma writes_under_stat_is_Some d σ σ' k :
  writes_under d σ σ' → is_Some (FS.stat σ k) → is_Some (FS.stat σ' k).
Proof.
  intros H. destruct k as [|x k]; [done|]. simpl. intros Hk.
  destruct (H (x :: k)) as [->|(_ & _ & ?)]; done.
Qed.

Lemma makedirs_parent_exists σ d :
  is_Some (FS.stat σ (dirname d)) → FS.makedirs σ d = FS.mkdir σ d.
Proof.
  intros Hpar. unfold FS.makedirs.
  destruct (reverse d) as [|x rhead] eqn:Hrd; simpl.
  - assert (d = []) as -> by (by rewrite <- (reverse_involutive d), Hrd). done.
  - assert (d = reverse (x :: rhead)) as Hd.
    { by rewrite <- Hrd, reverse_involutive. }
    rewrite <- Hd.
    assert (dirname d = reverse rhead) as Hdn.
    { rewrite Hd, reverse_cons. apply removelast_last. }
    rewrite Hdn in Hpar. by destruct Hpar as [n ->].
Qed.

Lemma mkdir_writes_under σ d σ' r :
  FS.mkdir σ d = (σ', r) → writes_under d σ σ'.
Proof.
  intros H. destruct r as [ex|].
  - apply mkdir_fail_unchanged in H as ->. apply writes_under_refl.
  - apply mkdir_ok in H as (_ & Hd & _ & ->). intros k.
    destruct (decide (d = k)) as [<-|Hne].
    + right. split; [done|]. rewrite lookup_insert_eq, Hd. split; [done|by eexists].
    + left. by rewrite lookup_insert_ne.
Qed.

Lemma copy2_writes_under L σ s t σ' r :
  FS.copy2 L σ s t = (σ', r) → writes_under t σ σ'.
Proof.
  intros H. destruct r as [ex|].
  - apply copy2_fail_unchanged in H as ->. apply writes_under_refl.
  - apply copy2_ok in H as (c & target & _ & _ & Hpre & _ & Hd & _ & _ & ->).
    intros k. destruct (decide (target = k)) as [<-|Hne].
    + right. split; [done|]. split; [done|].
      rewrite lookup_insert_eq. by eexists.
    + left. by rewrite lookup_insert_ne.
Qed.

Lemma copy_entries_writes_under rec L ign src d entries σ errs σ' res :
  rec_writes_under rec →
  is_Some (FS.stat σ d) →
  FS.copy_entries rec L ign src d entries σ errs = (σ', res) →
  writes_under d σ σ'.
Proof.
  intros Hrec. revert σ errs.
  induction entries as [|[name isdir] rest IH]; intros σ errs Hd; simpl.
  - intros [= <- _]. apply writes_under_refl.
  - case_decide; [by apply IH|].
    destruct (if isdir then rec (join src name) (join d name) σ
              else FS.copy2 L σ (join src name) (join d name))
      as [σ1 r] eqn:Hstep.
    assert (writes_under d σ σ1) as H1.
    { apply (writes_under_prefix d (join d name)); [by apply prefix_app_r|].
      destruct isdir; [|by eapply copy2_writes_under].
      eapply Hrec; [|done]. by rewrite dirname_join. }
    pose proof (writes_under_stat_is_Some _ _ _ _ H1 Hd) as Hd1.
    destruct r as [[]|]; try (intros H2; apply IH in H2; [|done];
      by apply (writes_under_trans _ _ σ1)).
    by intros [= <- _].
Qed.

Lemma copytree_writes_under L ign fuel :
  rec_writes_under (FS.copytree L ign fuel).
Proof.
  induction fuel as [|fuel IH]; intros s t σ σ' r Hpar; simpl.
  - intros [= <- _]. apply writes_under_refl.
  - destruct (FS.scandir σ s) as [e|entries].
    { intros [= <- _]. apply writes_under_refl. }
    rewrite makedirs_parent_exists by done.
    destruct (FS.mkdir σ t) as [σ1 [e|]] eqn:Hmk.
    { intros [= <- _]. by apply (mkdir_writes_under _ _ _ _ Hmk). }
    pose proof (mkdir_writes_under _ _ _ _ Hmk) as H1.
    apply mkdir_ok in Hmk as (Hnil & _ & _ & ->).
    destruct (FS.copy_entries _ _ _ _ _ _ _ _) as [σ2 res] eqn:Hloop.
    apply copy_entries_writes_under in Hloop; [|done|].
    + intros Hres. assert (σ' = σ2) as ->.
      { destruct res as [e|[|]]; congruence. }
      by apply (writes_under_trans _ _ (<[t:=Dir]> σ)).
    + rewrite stat_lookup, lookup_insert_eq by done. by eexists.
Qed.

End CopyUnder.

Section CopyDirFacts.

Variable E : env.
Implicit Types (w : world) (exclude : option (gset string)) (src dst : path).

(** The file system after [copy_dir] is the one [copytree] leaves. *)
Lemma copy_dir_fs src dst exclude w :
  fs (copy_dir E src dst exclude w).1 =
  (FS.copytree (locked E) (ignore src (set_or_empty exclude))
     (S (recursion_depth E)) src dst (fs w)).1.
Proof.
  unfold copy_dir, try_except. rewrite copy_dir_body_eq. cbn zeta.
  by destruct (FS.copytree _ _ _ _ _ _) as [σ [ex|]].
Qed.

Lemma copy_dir_outside src dst exclude w k :
  ¬ dst `prefix_of` k → ¬ k `prefix_of` dst →
  fs (copy_dir E src dst exclude w).1 !! k = fs w !! k.
Proof.
  rewrite copy_dir_fs.
  destruct (FS.copytree _ _ _ _ _ _) as [σ r] eqn:Hrun. simpl.
  apply copytree_writes in Hrun. by apply writes_below_outside.
Qed.

Lemma copy_dir_not_below src dst exclude w k :
  is_Some (FS.stat (fs w) (dirname dst)) →
  ¬ dst `prefix_of` k →
  fs (copy_dir E src dst exclude w).1 !! k = fs w !! k.
Proof.
  intros Hpar Hk. rewrite copy_dir_fs.
  destruct (FS.copytree _ _ _ _ _ _) as [σ r] eqn:Hrun. simpl.
  apply copytree_writes_under in Hrun; [|done].
  destruct (Hrun k) as [?|(? & _)]; done.
Qed.

End CopyDirFacts.

(** Whatever its outcome, [copy_dir] replaces no directory and leaves
    every entry that is neither at or below [dst] nor above it as it
    was. *)
Theorem copy_dir_frame (E : env) (src dst : path)
    (exclude : option (gset string)) (w : world) :
  (∀ k, fs w !! k = Some Dir → fs (copy_dir E src dst exclude w).1 !! k = Some Dir) ∧
  (∀ k, ¬ dst `prefix_of` k → ¬ k `prefix_of` dst →
        fs (copy_dir E src dst exclude w).1 !! k = fs w !! k).
Proof.
  split; [|intros k; apply copy_dir_outside].
  rewrite copy_dir_fs.
  destruct (FS.copytree _ _ _ _ _ _) as [σ r] eqn:Hrun. simpl.
  apply copytree_writes in Hrun. intros k. by apply writes_below_dir with dst.
Qed.

Lemma copy_dir_frame_witness :
  fs (copy_dir Demo.E0 ["ext"; "proj"] ["work"; "proj"] None Demo.w_copy).1
    !! ["ext"; "proj"; "Program.cs"] = Some (File "PC").
Proof.
  refine (eq_trans (proj2 (copy_dir_frame Demo.E0 ["ext"; "proj"]
            ["work"; "proj"] None Demo.w_copy) ["ext"; "proj"; "Program.cs"] _ _) _).
  - intros [r Hr]. discriminate Hr.
  - intros [r Hr]. discriminate Hr.
  - vm_compute. reflexivity.
Defined.

(** When the parent of [dst] exists, [copy_dir] changes nothing outside
    [dst], whatever its outcome. *)
Theorem copy_dir_writes_under_dst (E : env) (src dst : path)
    (exclude : option (gset string)) (w : world) (k : path) :
  is_Some (FS.stat (fs w) (dirname dst)) →
  ¬ dst `prefix_of` k →
  fs (copy_dir E src dst exclude w).1 !! k = fs w !! k.
Proof. apply copy_dir_not_below. Qed.

Lemma copy_dir_writes_under_dst_witness :
  fs (copy_dir Demo.E0 ["ext"; "proj"] ["work"; "proj"] None Demo.w_copy).1
    !! ["work"] = Some Dir.
Proof.
  assert (is_Some (FS.stat (fs Demo.w_copy) (dirname ["work"; "proj"]))) as Hpar
    by (exists Dir; vm_compute; reflexivity).
  refine (eq_trans (copy_dir_writes_under_dst Demo.E0 ["ext"; "proj"]
            ["work"; "proj"] None Demo.w_copy ["work"] Hpar _) _).
  - intros [r Hr]. discriminate Hr.
  - vm_compute. reflexivity.
Defined.

(** ** More on [copy_dir] *)

(** After a [copy_dir] whose body succeeded on a well-formed tree, the
    tree is well formed, [src] was a directory, [dst], which was missing,
    is a directory, and every entry that existed is there unchanged:
    nothing is overwritten and the source is intact. *)
Theorem copy_dir_success_preserves (E : env) (src dst : path)
    (exclude : option (gset string)) (w w' : world) :
  FS.wf (fs w) →
  copy_dir_body E src dst exclude w = (w', Normal) →
  FS.wf (fs w') ∧
  FS.stat (fs w) src = Some Dir ∧
  FS.stat (fs w) dst = None ∧
  fs w' !! dst = Some Dir ∧
  (∀ k n, fs w !! k = Some n → fs w' !! k = Some n).
Proof.
  intros Hwf Hrun. apply copy_dir_body_Normal in Hrun.
  assert (FS.stat (fs w) src = Some Dir ∧ fs w' !! dst = Some Dir) as [Hsrc Hdst].
  { pose proof Hrun as Hrun'. simpl in Hrun'.
    destruct (FS.scandir (fs w) src) as [e|entries] eqn:Hscan; [done|].
    apply scandir_inr in Hscan. split; [done|].
    destruct (FS.makedirs (fs w) dst) as [σ1 [e|]] eqn:Hmk; [done|].
    apply makedirs_ok in Hmk as (_ & Hd & _ & _).
    destruct (FS.copy_entries _ _ _ _ _ _ _ _) as [σ2 res] eqn:Hloop.
    assert (σ2 = fs w') as -> by (destruct res as [e|[|]]; congruence).
    apply copy_entries_writes in Hloop; [|apply copytree_writes].
    exact (writes_below_dir _ _ _ _ Hloop Hd). }
  rewrite <- (app_nil_r src) in Hrun at 2.
  apply copytree_ok in Hrun as (Hwf' & Hnone & Hpres & _ & _); [|done].
  done.
Qed.

Lemma copy_dir_success_preserves_witness :
  fs (copy_dir_body Demo.E0 ["ext"; "proj"] ["work"; "proj"]
        (Some {["bin"; "obj"]}) Demo.w_copy).1 !! ["work"; "proj"] = Some Dir.
Proof.
  assert (copy_dir_body Demo.E0 ["ext"; "proj"] ["work"; "proj"]
            (Some {["bin"; "obj"]}) Demo.w_copy =
          ((copy_dir_body Demo.E0 ["ext"; "proj"] ["work"; "proj"]
              (Some {["bin"; "obj"]}) Demo.w_copy).1, Normal)) as Hrun
    by (vm_compute; reflexivity).
  assert (FS.wf (fs Demo.w_copy)) as Hwf
    by (apply (bool_decide_unpack _); vm_compute; exact I).
  exact (proj1 (proj2 (proj2 (proj2 (copy_dir_success_preserves Demo.E0
          ["ext"; "proj"] ["work"; "proj"] (Some {["bin"; "obj"]})
          Demo.w_copy _ Hwf Hrun))))).
Defined.



(** A [src] that is a regular file is no better than a missing one:
    [copy_dir] changes nothing and prints, after the announcing line,
    the failure line with the text of [NotADirectoryError] on [src]. *)
Theorem copy_dir_src_regular_file (E : env) (src dst : path)
    (exclude : option (gset string)) (w : world) (c : string) :
  FS.stat (fs w) src = Some (File c) →
  copy_dir E src dst exclude w =
  ({| fs := fs w;
      stdout := stdout w ++
        ["Copying: " +:+ relpath src (cwd E);
         "Failed to copy: " +:+ Path.show src +:+ ";" +:+ newline +:+
           "[Errno 20] Not a directory: '" +:+ Path.show src +:+ "'"];
      calls := calls w ++ [CallCopytree src dst] |}, Normal).
Proof.
  intros Hsrc. unfold copy_dir, try_except. rewrite copy_dir_body_eq. simpl.
  unfold FS.scandir, FS.listdir. rewrite Hsrc. simpl.
  unfold print, set_fs. simpl. by rewrite <- (assoc_L (++)).
Qed.

Lemma copy_dir_src_regular_file_witness :
  copy_dir Demo.E0 ["ext"; "proj"; "Program.cs"] ["work"; "p"] None Demo.w_copy =
  ({| fs := fs Demo.w_copy;
      stdout := ["Copying: ../ext/proj/Program.cs";
                 "Failed to copy: /ext/proj/Program.cs;" +:+ newline +:+
                 "[Errno 20] Not a directory: '/ext/proj/Program.cs'"];
      calls := [CallCopytree ["ext"; "proj"; "Program.cs"] ["work"; "p"]] |},
   Normal).
Proof.
  assert (FS.stat (fs Demo.w_copy) ["ext"; "proj"; "Program.cs"]
          = Some (File "PC")) as Hsrc by (vm_compute; reflexivity).
  exact (eq_trans (copy_dir_src_regular_file Demo.E0
                     ["ext"; "proj"; "Program.cs"] ["work"; "p"] None
                     Demo.w_copy "PC" Hsrc)
           ltac:(vm_compute; reflexivity)).
Defined.

(** ** [copytree]: when it succeeds *)

Section CopySucceeds.

Variables (L : gset path) (X : gset string) (root : path).
Implicit Types (σ : gmap path node) (p k d q r : path).



(** After a successful nested copy into [d'], apart from [p], what lies
    at or below [p] was there before. *)
Lemma copied_ok_below_src q' d' σ σ' p k :
  copied_ok X root q' d' σ σ' →
  ¬ p `prefix_of` d' → ¬ d' `prefix_of` p →
  p `prefix_of` k → is_Some (σ' !! k) → is_Some (FS.stat σ k).
Proof.
  intros (_ & _ & _ & Hkeys & _) H1 H2 Hk Hin.
  destruct (Hkeys k Hin) as [?|[Hpre|(r & -> & _)]]; [done|..].
  - destruct H1. by etrans.
  - destruct (prefix_weak_total p d' (d' ++ r)) as [?|?]; try done.
    by apply prefix_app_r.
Qed.



End CopySucceeds.





(** ** The script: clearing, then copying *)

Section Sync.

Variable E : env.
Implicit Types (w : world) (k : path).

Lemma copy_dir_Normal src dst exclude w : (copy_dir E src dst exclude w).2 = Normal.
Proof.
  unfold copy_dir, try_except. by destruct (copy_dir_body _ _ _ _ _) as [w2 [|ex]].
Qed.

Lemma sync_eq w :
  sync E w =
  match clear_dir E (cwd E) (Some keep_main) w with
  | (w1, Normal) =>
      copy_dir E (project_src E "Informer") (project_dst E "Informer")
        (Some exclude_main)
        (copy_dir E (project_src E "SettingsLib") (project_dst E "SettingsLib")
           (Some exclude_main) w1).1
  | (w1, Raised ex) => (w1, Raised ex)
  end.
Proof.
  unfold sync, seq. destruct (clear_dir _ _ _ _) as [w1 [|ex]]; [|done].
  pose proof (copy_dir_Normal (project_src E "SettingsLib")
                (project_dst E "SettingsLib") (Some exclude_main) w1) as Hn.
  destruct (copy_dir E (project_src E "SettingsLib") _ _ w1) as [w2 o].
  simpl in Hn. by subst o.
Qed.


End Sync.

(** The outcome of the script's file-system part is the outcome of
    [clear_dir]: no failure of the two copies stops the script, and an
    exception of [clear_dir] stops it before anything is copied. *)
Theorem sync_outcome (E : env) (w : world) :
  (sync E w).2 = (clear_dir E (cwd E) (Some keep_main) w).2 ∧
  (∀ ex, (clear_dir E (cwd E) (Some keep_main) w).2 = Raised ex →
         sync E w = clear_dir E (cwd E) (Some keep_main) w).
Proof.
  rewrite sync_eq.
  destruct (clear_dir E (cwd E) (Some keep_main) w) as [w1 [|ex]]; simpl.
  - by rewrite copy_dir_Normal.
  - done.
Qed.

Lemma sync_outcome_witness :
  sync Demo.E_shallow Demo.w_deep =
    clear_dir Demo.E_shallow ["work"] (Some keep_main) Demo.w_deep.
Proof.
  assert ((clear_dir Demo.E_shallow (cwd Demo.E_shallow) (Some keep_main)
             Demo.w_deep).2 = Raised RecursionError) as Hex
    by (vm_compute; reflexivity).
  exact (proj2 (sync_outcome Demo.E_shallow Demo.w_deep) RecursionError Hex).
Defined.

(** Nothing at or below a kept child of the working directory ([.git],
    [README.md], ...) is changed by the script. *)
Theorem sync_keeps_kept (E : env) (w : world) (item : string) (k : path) :
  item ∈ keep_main →
  join (cwd E) item `prefix_of` k →
  fs (sync E w).1 !! k = fs w !! k.
Proof.
  intros Hkeep Hk.
  assert (∀ name, name ∉ keep_main →
            ¬ project_dst E name `prefix_of` k ∧ ¬ k `prefix_of` project_dst E name)
    as Hdst.
  { intros name Hname. assert (item ≠ name) as Hne by (by intros ->). split.
    - by apply (sibling_not_prefix (cwd E) item name).
    - destruct Hk as [r ->]. unfold project_dst, join.
      intros [r' Hr']. rewrite <- !(assoc_L (++)) in Hr'.
      apply (inj (app (cwd E))) in Hr'. simpl in Hr'. congruence. }
  assert (fs (clear_dir E (cwd E) (Some keep_main) w).1 !! k = fs w !! k) as Hclear.
  { apply clear_dir_fs_frame. intros item' Hitem'.
    apply (sibling_not_prefix (cwd E) item item'); [|done]. by intros ->. }
  rewrite sync_eq. destruct (clear_dir _ _ _ _) as [w1 [|ex]]; [|done].
  simpl in Hclear.
  destruct (Hdst "SettingsLib") as [H1 H2].
  { apply (bool_decide_unpack _). vm_compute. exact I. }
  destruct (Hdst "Informer") as [H3 H4].
  { apply (bool_decide_unpack _). vm_compute. exact I. }
  rewrite !copy_dir_outside by done. done.
Qed.

Lemma sync_keeps_kept_witness :
  fs (sync Demo2.E_list Demo2.w_list).1 !! ["home"; "list"; ".git"; "HEAD"]
  = Some (File "ref").
Proof.
  assert (".git" ∈ keep_main) as Hkeep
    by (apply (bool_decide_unpack _); vm_compute; exact I).
  assert (join (cwd Demo2.E_list) ".git" `prefix_of`
            ["home"; "list"; ".git"; "HEAD"]) as Hpre
    by (exists ["HEAD"]; reflexivity).
  exact (eq_trans (sync_keeps_kept Demo2.E_list Demo2.w_list ".git"
                     ["home"; "list"; ".git"; "HEAD"] Hkeep Hpre)
           ltac:(vm_compute; reflexivity)).
Defined.


